(** * asiofied_libpq: the result-handler queue, the run-loop and the parameter block

    A shallow embedding of

    - [include/asiofiedpq/connection.hpp]: the result handlers, the FIFO of
      handlers owned by a connection, the reader half of [async_run], the
      initiation and the continuation of [async_query] and
      [async_exec_pipeline], and the destructor;
    - [include/psql/params.hpp] and [include/psql/detail/serialization.hpp]:
      the parameter block handed to the native submission call;
    - [include/psql/detail/extract_new_udts.hpp]: the structural scan for
      user-defined types.

    Coroutines are modelled by their atomic segments: the code between two
    suspension points runs without interleaving (single-threaded cooperative
    scheduling), so each segment is a function on the connection state.  The
    native protocol library and the socket are not part of the repository; they
    are an interface ([native]) every definition is parametric in. *)

From Stdlib Require Import ZArith Lia.
From stdpp Require Import base option list gmap strings.

Set Warnings "-register-all".

(** ** Outcomes of code that can go wrong *)

(** What C++ leaves undefined, or aborts on, is an explicit fault here. *)
Inductive fault :=
| assertion_failed            (* [assert] evaluated to false *)
| invalid_access (pos : Z).   (* dereference of an iterator outside its container *)

Inductive outcome (A : Type) :=
| Ok (a : A)
| Fault (f : fault)
| OutOfFuel.
Arguments Ok {A} a.
Arguments Fault {A} f.
Arguments OutOfFuel {A}.

#[global] Instance outcome_ret : MRet outcome := λ A a, Ok a.
#[global] Instance outcome_bind : MBind outcome := λ A B k m,
  match m with
  | Ok a => k a
  | Fault f => Fault f
  | OutOfFuel => OutOfFuel
  end.

Module Asiofiedpq.

(** ** Error codes ([error.hpp] and [asio::error]) *)

Inductive error_code :=
| success                      (* error_code{} *)
| operation_aborted            (* asio::error::operation_aborted *)
| pqstatus_failed
| pqsetnonblocking_failed
| connection_failed
| pqenterpipelinemode_failed
| pqsendqueryparams_failed
| pqpipelinesync_failed
| pqconsumeinput_failed
| transport_error (errno : positive).   (* any other error of the socket *)

(** [error_code::operator bool]: true when the code is not the zero value. *)
Definition is_error (ec : error_code) : bool :=
  match ec with success => false | _ => true end.

#[global] Instance error_code_eq_dec : EqDecision error_code.
Proof. solve_decision. Defined.

(** ** Results ([result.hpp] over [PGresult]) *)

Inductive ExecStatusType :=
| PGRES_EMPTY_QUERY | PGRES_COMMAND_OK | PGRES_TUPLES_OK | PGRES_COPY_OUT
| PGRES_COPY_IN | PGRES_BAD_RESPONSE | PGRES_NONFATAL_ERROR | PGRES_FATAL_ERROR
| PGRES_COPY_BOTH | PGRES_SINGLE_TUPLE | PGRES_PIPELINE_SYNC | PGRES_PIPELINE_ABORTED.

#[global] Instance ExecStatusType_eq_dec : EqDecision ExecStatusType.
Proof. solve_decision. Defined.

(** One protocol result message: its status and an identity standing for its
    payload. *)
Record PGresult := { res_status : ExecStatusType; res_tag : nat }.

#[global] Instance PGresult_eq_dec : EqDecision PGresult.
Proof. solve_decision. Defined.

(** [asiofiedpq::result] owns a [PGresult*]; [None] is the null pointer. *)
Definition result := option PGresult.

Definition nullptr : result := None.

(** [PQresultStatus]: the status of the message, [PGRES_FATAL_ERROR] for null. *)
Definition PQresultStatus (res : result) : ExecStatusType :=
  match res with
  | Some r => res_status r
  | None => PGRES_FATAL_ERROR
  end.

(** ** Queries *)

Record query := { q_command : string }.

(** [pipelined_query]: the field the source calls [result] is [pq_result] here
    (the name is taken by the type). *)
Record pipelined_query := { command : string; pq_result : result }.

(** ** Result handlers *)

Inductive status := waiting | completed | cancelled.

#[global] Instance status_eq_dec : EqDecision status.
Proof. solve_decision. Defined.

(** The two classes derived from [result_handler], as a tagged sum.  The
    iterators of the pipeline handler are positions in the caller's container. *)
Inductive handler_body :=
| single_query_result_handler (result_ : result)
| pipeline_result_handler (first_ last_ : Z) (n_dummy_ : Z).

(** [cv_] is a timer that never expires; it is only ever cancelled, so its state
    is the number of [cancel_one] calls made on it. *)
Record result_handler := {
  status_ : status;
  cv_ : nat;
  body : handler_body
}.

Definition get_status (rh : result_handler) : status := status_ rh.

Definition cancel (rh : result_handler) : result_handler :=
  {| status_ := cancelled; cv_ := S (cv_ rh); body := body rh |}.

Definition complete (rh : result_handler) : result_handler :=
  {| status_ := completed; cv_ := S (cv_ rh); body := body rh |}.

Definition with_body (rh : result_handler) (b : handler_body) : result_handler :=
  {| status_ := status_ rh; cv_ := cv_ rh; body := b |}.

(** The constructors: status [waiting], [n_dummy_{0}], [result_] null. *)
Definition new_single_query_result_handler : result_handler :=
  {| status_ := waiting; cv_ := 0; body := single_query_result_handler nullptr |}.

Definition new_pipeline_result_handler (first last : Z) : result_handler :=
  {| status_ := waiting; cv_ := 0; body := pipeline_result_handler first last 0 |}.

(** [size_t] arithmetic wraps at 2^64. *)
Definition size_t_wrap (z : Z) : Z := (z mod 2 ^ 64)%Z.

(** [first_->result = std::move(res)]: defined only inside the container. *)
Definition write_result (storage : list pipelined_query) (pos : Z) (res : result)
  : option (list pipelined_query) :=
  if decide (0 ≤ pos)%Z then
    match storage !! Z.to_nat pos with
    | Some pq =>
        Some (<[Z.to_nat pos := {| command := command pq; pq_result := res |}]> storage)
    | None => None
    end
  else None.

(** [handle], for both classes.  The storage is the caller's container the
    pipeline handler's iterators point into. *)
Definition handle (rh : result_handler) (storage : list pipelined_query) (res : result)
  : outcome (result_handler * list pipelined_query) :=
  match body rh with
  | single_query_result_handler _ =>
      Ok (complete (with_body rh (single_query_result_handler res)), storage)
  | pipeline_result_handler f l n =>
      if decide (n ≠ 0)%Z then
        let n' := size_t_wrap (n - 1) in
        let rh' := with_body rh (pipeline_result_handler f l n') in
        Ok (if decide (n' = 0)%Z then complete rh' else rh', storage)
      else
        match write_result storage f res with
        | None => Fault (invalid_access f)
        | Some storage' =>
            let rh' := with_body rh (pipeline_result_handler (f + 1) l n) in
            Ok (if decide (f + 1 = l)%Z then complete rh' else rh', storage')
        end
  end.

(** [dumify]: [n_dummy_ = std::distance(first_, last_)], converted to [size_t]. *)
Definition dumify (first_ last_ n_dummy_ : Z) : handler_body :=
  pipeline_result_handler first_ last_ (size_t_wrap (last_ - first_)).

(** [release_result]: moves the stored result out, leaving null behind. *)
Definition release_result (result_ : result) : result * handler_body :=
  (result_, single_query_result_handler nullptr).

(** A handler is in dummy mode when [handle] takes its [if (n_dummy_)] branch. *)
Definition in_dummy_mode (rh : result_handler) : bool :=
  match body rh with
  | pipeline_result_handler _ _ n => bool_decide (n ≠ 0)%Z
  | single_query_result_handler _ => false
  end.

(** ** The connection *)

(** How an exec operation completed: the arguments of its completion handler. *)
Inductive completion :=
| query_completion (ec : error_code) (res : result)   (* void(error_code, result) *)
| pipeline_completion (ec : error_code).              (* void(error_code) *)

(** One exec operation: the handler it created (shared between the queue and the
    coroutine frame by [shared_ptr]), the caller's container its iterators point
    into (empty for a single query), and the completion delivered to the caller,
    [None] while the coroutine is suspended in [rh->async_wait]. *)
Record operation := {
  rh : result_handler;
  storage : list pipelined_query;
  delivered : option completion
}.

(** The state of a connection as far as the handlers are concerned.

    [handlers] is the store of every handler ever created on the connection, in
    creation order; a handler is named by its index.  [result_handlers_] is the
    [std::queue], front first, holding such names.  [popped] and [handled] are
    histories kept for the statements only: the names removed by [pop()], oldest
    first, and the [handle] calls made by the reader, oldest first. *)
Record connection := {
  handlers : list operation;
  result_handlers_ : list nat;
  write_cv_ : nat;
  popped : list nat;
  handled : list (nat * result)
}.

Definition new_connection : connection :=
  {| handlers := []; result_handlers_ := []; write_cv_ := 0;
     popped := []; handled := [] |}.

(** [self->write_cv_.cancel_one(); ... self->result_handlers_.push(rh);] *)
Definition enqueue (o : operation) (c : connection) : connection :=
  {| handlers := handlers c ++ [o];
     result_handlers_ := result_handlers_ c ++ [length (handlers c)];
     write_cv_ := S (write_cv_ c);
     popped := popped c;
     handled := handled c |}.

(** The body of the reader's inner loop from the status test on (lines
    374-383), for a result [res] the native library handed over. *)
Definition dispatch (res : result) (c : connection) : outcome connection :=
  if decide (PQresultStatus res = PGRES_PIPELINE_SYNC) then Ok c
  else
    match result_handlers_ c with
    | [] => Fault assertion_failed
    | id :: rest =>
        match handlers c !! id with
        | None => Fault (invalid_access (Z.of_nat id))
        | Some o =>
            '(rh', storage') ← handle (rh o) (storage o) res;
            let o' := {| rh := rh'; storage := storage'; delivered := delivered o |} in
            let done := bool_decide (get_status rh' = completed) in
            Ok {| handlers := <[id := o']> (handlers c);
                  result_handlers_ := if done then rest else id :: rest;
                  write_cv_ := write_cv_ c;
                  popped := if done then popped c ++ [id] else popped c;
                  handled := handled c ++ [(id, res)] |}
        end
    end.

(** The continuation of an exec operation after [co_await rh->async_wait]
    (lines 243-252 and 304-310).  A coroutine that has returned is not resumed
    again. *)
Definition resume_operation (o : operation) : operation :=
  match delivered o with
  | Some _ => o
  | None =>
      match body (rh o) with
      | pipeline_result_handler f l n =>
          match get_status (rh o) with
          | waiting =>
              {| rh := with_body (rh o) (dumify f l n);
                 storage := storage o;
                 delivered := Some (pipeline_completion operation_aborted) |}
          | cancelled =>
              {| rh := rh o; storage := storage o;
                 delivered := Some (pipeline_completion connection_failed) |}
          | completed =>
              {| rh := rh o; storage := storage o;
                 delivered := Some (pipeline_completion success) |}
          end
      | single_query_result_handler r =>
          match get_status (rh o) with
          | waiting =>
              {| rh := rh o; storage := storage o;
                 delivered := Some (query_completion operation_aborted nullptr) |}
          | cancelled =>
              {| rh := rh o; storage := storage o;
                 delivered := Some (query_completion connection_failed nullptr) |}
          | completed =>
              let '(res, b) := release_result r in
              {| rh := with_body (rh o) b; storage := storage o;
                 delivered := Some (query_completion success res) |}
          end
      end
  end.

Definition resume (id : nat) (c : connection) : connection :=
  match handlers c !! id with
  | None => c
  | Some o =>
      {| handlers := <[id := resume_operation o]> (handlers c);
         result_handlers_ := result_handlers_ c;
         write_cv_ := write_cv_ c;
         popped := popped c;
         handled := handled c |}
  end.

(** [~connection]: cancel and pop every handler still queued. *)
Fixpoint cancel_all (q : list nat) (hs : list operation) : list operation :=
  match q with
  | [] => hs
  | id :: rest =>
      cancel_all rest
        (match hs !! id with
         | Some o =>
             <[id := {| rh := cancel (rh o); storage := storage o;
                        delivered := delivered o |}]> hs
         | None => hs
         end)
  end.

Definition destroy (c : connection) : connection :=
  {| handlers := cancel_all (result_handlers_ c) (handlers c);
     result_handlers_ := [];
     write_cv_ := write_cv_ c;
     popped := popped c ++ result_handlers_ c;
     handled := handled c |}.

(** ** The native library and the socket *)

Inductive wait_type := wait_read | wait_write.

(** The calls the connection makes on [PGconn] and on the socket, over a world
    [W] that stands for the session, the socket and the server behind it.  The
    [int] results are read the way the source tests them. *)
Record native (W : Type) := {
  PQsendQueryParams : W → string → bool * W;   (* non-zero: the query was queued *)
  PQpipelineSync : W → bool * W;               (* non-zero: the sync was queued *)
  PQisBusy : W → bool;
  PQgetResult : W → result * W;
  PQconsumeInput : W → bool * W;               (* non-zero: input was consumed *)
  PQflush : W → bool * W;                      (* non-zero: not everything is sent *)
  async_wait : wait_type → W → error_code * W  (* socket readiness, or its error *)
}.
Arguments PQsendQueryParams {W} _ _ _.
Arguments PQpipelineSync {W} _ _.
Arguments PQisBusy {W} _ _.
Arguments PQgetResult {W} _ _.
Arguments PQconsumeInput {W} _ _.
Arguments PQflush {W} _ _.
Arguments async_wait {W} _ _ _.

Section Engine.
Context {W : Type} (N : native W).

(** The reader's inner [while (!PQisBusy(...))] loop (lines 360-384). *)
Fixpoint reader_drain (fuel : nat) (w : W) (c : connection) : outcome (W * connection) :=
  match fuel with
  | 0 => OutOfFuel
  | S fuel' =>
      if PQisBusy N w then Ok (w, c)
      else
        let '(res, w1) := PQgetResult N w in
        match res with
        | Some _ => c' ← dispatch res c; reader_drain fuel' w1 c'
        | None =>
            if PQisBusy N w1 then Ok (w1, c)
            else
              let '(res2, w2) := PQgetResult N w1 in
              match res2 with
              | Some _ => c' ← dispatch res2 c; reader_drain fuel' w2 c'
              | None => Ok (w2, c)
              end
        end
  end.

(** What the reader does once the drain is over (lines 386-390): wait for the
    socket to be readable, then consume the input.  [Some ec] is [co_return ec]. *)
Definition reader_refill (w : W) : option error_code * W :=
  let '(ec, w1) := async_wait N wait_read w in
  if is_error ec then (Some ec, w1)
  else
    let '(ok, w2) := PQconsumeInput N w1 in
    if ok then (None, w2) else (Some pqconsumeinput_failed, w2).

(** The reader half, with no other coroutine running in between. *)
Fixpoint reader (fuel : nat) (w : W) (c : connection)
  : outcome (error_code * W * connection) :=
  match fuel with
  | 0 => OutOfFuel
  | S fuel' =>
      '(w1, c1) ← reader_drain fuel w c;
      match reader_refill w1 with
      | (Some ec, w2) => Ok (ec, w2, c1)
      | (None, w2) => reader fuel' w2 c1
      end
  end.

(** The results [PQgetResult] hands to the reader during one run of its inner
    loop (lines 360-372), nulls left out, oldest first, and the world the loop
    ends in. *)
Fixpoint drained (fuel : nat) (w : W) : list result * W :=
  match fuel with
  | 0 => ([], w)
  | S fuel' =>
      if PQisBusy N w then ([], w)
      else
        let '(res, w1) := PQgetResult N w in
        match res with
        | Some _ => let '(rs, w') := drained fuel' w1 in (res :: rs, w')
        | None =>
            if PQisBusy N w1 then ([], w1)
            else
              let '(res2, w2) := PQgetResult N w1 in
              match res2 with
              | Some _ => let '(rs, w') := drained fuel' w2 in (res2 :: rs, w')
              | None => ([], w2)
              end
        end
  end.

(** The results [PQgetResult] hands to the reader half over its whole run
    (lines 358-391), oldest first. *)
Fixpoint received (fuel : nat) (w : W) : list result :=
  match fuel with
  | 0 => []
  | S fuel' =>
      let '(rs, w1) := drained fuel w in
      match reader_refill w1 with
      | (Some _, _) => rs
      | (None, w2) => rs ++ received fuel' w2
      end
  end.

(** The writer's [while (PQflush(...))] loop (lines 340-342). *)
Fixpoint writer_flush (fuel : nat) (w : W) : outcome (option error_code * W) :=
  match fuel with
  | 0 => OutOfFuel
  | S fuel' =>
      let '(more, w1) := PQflush N w in
      if more then
        let '(ec, w2) := async_wait N wait_write w1 in
        if is_error ec then Ok (Some ec, w2) else writer_flush fuel' w2
      else Ok (None, w1)
  end.

(** What a wait of the writer on [write_cv_] resumes with: the code the timer
    completed with ([operation_aborted] when an exec called [cancel_one]), or
    the cancellation of the writer itself, by the parallel group once the
    reader has completed. *)
Inductive wakeup :=
| timer_completed (ec : error_code)
| writer_cancelled.

(** The writer half (lines 332-343).  [wakeups] are what its waits on
    [write_cv_] resume with, in order.  A cancelled writer completes with the
    code it registered at line 332; a timer code other than [operation_aborted]
    ends the writer with that code; on [operation_aborted] it flushes and waits
    again.  When the wake-ups run out the writer is still waiting, which is
    [OutOfFuel] here. *)
Fixpoint writer (fuel : nat) (wakeups : list wakeup) (w : W)
  : outcome (error_code * W) :=
  match wakeups with
  | [] => OutOfFuel
  | writer_cancelled :: _ => Ok (operation_aborted, w)
  | timer_completed ec :: wakeups' =>
      if decide (ec ≠ operation_aborted) then Ok (ec, w)
      else
        r ← writer_flush fuel w;
        match r with
        | (Some ec', w1) => Ok (ec', w1)
        | (None, w1) => writer fuel wakeups' w1
        end
  end.

(** [async_query] up to its suspension (lines 269-302). *)
Definition async_query (q : query) (w : W) (c : connection)
  : W * connection * option completion :=
  let '(ok, w1) := PQsendQueryParams N w (q_command q) in
  if negb ok then (w1, c, Some (query_completion pqsendqueryparams_failed nullptr))
  else
    let '(ok2, w2) := PQpipelineSync N w1 in
    if negb ok2 then (w2, c, Some (query_completion pqpipelinesync_failed nullptr))
    else
      (w2,
       enqueue {| rh := new_single_query_result_handler; storage := [];
                  delivered := None |} c,
       None).

(** The submission loop of [async_exec_pipeline] (lines 192-194): [it->command]
    is read through the iterator, so the iterator has to be inside the
    container.  [Ok (false, _)] is a refused query. *)
Fixpoint send_pipeline (fuel : nat) (w : W) (st : list pipelined_query) (it last : Z)
  : outcome (bool * W) :=
  match fuel with
  | 0 => OutOfFuel
  | S fuel' =>
      if decide (it = last) then Ok (true, w)
      else if decide (0 ≤ it)%Z then
        match st !! Z.to_nat it with
        | None => Fault (invalid_access it)
        | Some pq =>
            let '(ok, w1) := PQsendQueryParams N w (command pq) in
            if ok then send_pipeline fuel' w1 st (it + 1)%Z last else Ok (false, w1)
        end
      else Fault (invalid_access it)
  end.

(** [async_exec_pipeline] up to its suspension (lines 192-241). *)
Definition async_exec_pipeline (st : list pipelined_query) (first last : Z)
  (w : W) (c : connection) : outcome (W * connection * option completion) :=
  '(ok, w1) ← send_pipeline (S (length st)) w st first last;
  if negb ok then Ok (w1, c, Some (pipeline_completion pqsendqueryparams_failed))
  else
    let '(ok2, w2) := PQpipelineSync N w1 in
    if negb ok2 then Ok (w2, c, Some (pipeline_completion pqpipelinesync_failed))
    else
      Ok (w2,
          enqueue {| rh := new_pipeline_result_handler first last; storage := st;
                     delivered := None |} c,
          None).

End Engine.

(** ** The outcome of [async_run] *)

(** What the parallel group of the writer (operation 0) and the reader
    (operation 1) completes with: the completion order and the code of each
    half. *)
Record group_result := {
  order : list nat;
  ec1 : error_code;   (* the writer's *)
  ec2 : error_code    (* the reader's *)
}.

(** [auto [_, ec1, ec2] = co_await ...; co_return ec1 ? ec1 : ec2;] *)
Definition async_run_result (g : group_result) : error_code :=
  if is_error (ec1 g) then ec1 g else ec2 g.

(** The code of the half that completed first, by the group's completion order. *)
Definition first_terminated (g : group_result) : option error_code :=
  match order g with
  | 0 :: _ => Some (ec1 g)
  | 1 :: _ => Some (ec2 g)
  | _ => None
  end.

(** ** Reachable states *)

(** The atomic segments that touch the handlers, with the environment left
    open: any result may arrive, any suspended exec may be resumed. *)
Inductive step : connection → connection → Prop :=
| step_query c :
    step c (enqueue {| rh := new_single_query_result_handler; storage := [];
                       delivered := None |} c)
| step_pipeline c st first last :
    step c (enqueue {| rh := new_pipeline_result_handler first last; storage := st;
                       delivered := None |} c)
| step_dispatch c res c' :
    dispatch res c = Ok c' → step c c'
| step_resume c id :
    step c (resume id c).

Definition reachable (c : connection) : Prop := rtc step new_connection c.

(** The only segment the reader contributes: one result dispatched. *)
Definition delivers (c c' : connection) : Prop := ∃ res, dispatch res c = Ok c'.

(** ** Vocabulary of the statements *)

(** The reader calling [handle] on one handler for each result of a list, in
    order. *)
Fixpoint handle_all (h : result_handler) (st : list pipelined_query) (rs : list result)
  : outcome (result_handler * list pipelined_query) :=
  match rs with
  | [] => Ok (h, st)
  | r :: rs' => '(h', st') ← handle h st r; handle_all h' st' rs'
  end.

(** A handler has reached [completed] or [cancelled]. *)
Definition settled (h : result_handler) : Prop :=
  get_status h = completed ∨ get_status h = cancelled.

#[global] Instance settled_dec h : Decision (settled h).
Proof. unfold settled. apply _. Defined.

(** The status of the handler named [id], if there is one. *)
Definition status_of (c : connection) (id : nat) : option status :=
  (λ o, get_status (rh o)) <$> handlers c !! id.

(** What holds of the queue in every reachable state: the names that left the
    queue followed by the names still in it are the names in creation order;
    what left the queue is [completed]; what is in the queue is [waiting]. *)
Record queue_inv (c : connection) : Prop := {
  inv_order : popped c ++ result_handlers_ c = seq 0 (length (handlers c));
  inv_popped : ∀ id, id ∈ popped c → status_of c id = Some completed;
  inv_queued : ∀ id, id ∈ result_handlers_ c → status_of c id = Some waiting
}.

(** ** A scripted session, for the examples *)

(** The session is never busy, hands out the results of [inbox] one by one and
    null after that; the waits on the socket complete with the codes of
    [readiness] in turn, with success after that. *)
Record script := {
  inbox : list result;
  readiness : list error_code;
  consumes : bool;
  accepts : bool
}.

Definition scripted : native script :=
  {| PQsendQueryParams := λ w _, (accepts w, w);
     PQpipelineSync := λ w, (accepts w, w);
     PQisBusy := λ _, false;
     PQgetResult := λ w,
       match inbox w with
       | [] => (nullptr, w)
       | r :: rs =>
           (r, {| inbox := rs; readiness := readiness w; consumes := consumes w;
                  accepts := accepts w |})
       end;
     PQconsumeInput := λ w, (consumes w, w);
     PQflush := λ w, (false, w);
     async_wait := λ _ w,
       match readiness w with
       | [] => (success, w)
       | ec :: ecs =>
           (ec, {| inbox := inbox w; readiness := ecs; consumes := consumes w;
                   accepts := accepts w |})
       end |}.

(** A connection that is lost while one query is in flight: the query was
    submitted, nothing has come back, and the wait for the socket fails (code
    104 standing for a reset connection). *)
Definition lost_connection : script :=
  {| inbox := []; readiness := [transport_error 104]; consumes := true;
     accepts := true |}.

Definition one_query_pending : connection :=
  (async_query scripted {| q_command := "SELECT 1;" |} lost_connection
     new_connection).1.2.

(** A pipeline of three queries in the caller's container, submitted and not
    yet answered. *)
Definition phonebook : list pipelined_query :=
  [ {| command := "DROP TABLE IF EXISTS phonebook;"; pq_result := nullptr |};
    {| command := "CREATE TABLE phonebook(phone TEXT, name TEXT);";
       pq_result := nullptr |};
    {| command := "SELECT * FROM phonebook ORDER BY name;"; pq_result := nullptr |} ].

Definition pipeline_pending : connection :=
  enqueue {| rh := new_pipeline_result_handler 0 3; storage := phonebook;
             delivered := None |} new_connection.

(** Results as the server sends them: the answer numbered [tag], and the sync
    marker that closes a batch. *)
Definition command_ok (tag : nat) : result :=
  Some {| res_status := PGRES_COMMAND_OK; res_tag := tag |}.

Definition tuples_ok (tag : nat) : result :=
  Some {| res_status := PGRES_TUPLES_OK; res_tag := tag |}.

Definition pipeline_sync : result :=
  Some {| res_status := PGRES_PIPELINE_SYNC; res_tag := 0 |}.

(** A session that answers with [rs] and then fails the wait on the socket. *)
Definition answering (rs : list result) : script :=
  {| inbox := rs; readiness := [transport_error 104]; consumes := true;
     accepts := true |}.

(** ** The handshake *)

Inductive ConnStatusType := CONNECTION_OK | CONNECTION_BAD | CONNECTION_STARTED.

Inductive PostgresPollingStatusType :=
| PGRES_POLLING_FAILED | PGRES_POLLING_READING | PGRES_POLLING_WRITING
| PGRES_POLLING_OK | PGRES_POLLING_ACTIVE.

#[global] Instance PostgresPollingStatusType_eq_dec : EqDecision PostgresPollingStatusType.
Proof. solve_decision. Defined.

(** The calls [async_connect] makes besides the waits on the socket.
    [PQconnectStart] stands for the start of the session together with the
    adoption of its descriptor by the socket. *)
Record native_connect (W : Type) := {
  PQconnectStart : string → W → W;
  PQstatus : W → ConnStatusType;
  PQsetnonblocking : W → bool * W;             (* non-zero: failure *)
  PQconnectPoll : W → PostgresPollingStatusType * W;
  PQenterPipelineMode : W → bool * W           (* non-zero: success *)
}.
Arguments PQconnectStart {W} _ _ _.
Arguments PQstatus {W} _ _.
Arguments PQsetnonblocking {W} _ _.
Arguments PQconnectPoll {W} _ _.
Arguments PQenterPipelineMode {W} _ _.

Section Handshake.
Context {W : Type} (N : native W) (NC : native_connect W).

(** The polling loop of [async_connect] (lines 154-171): [Ok (None, w)] is the
    [break] on [PGRES_POLLING_OK], [Ok (Some ec, w)] is [co_return ec]. *)
Fixpoint connect_poll (fuel : nat) (w : W) : outcome (option error_code * W) :=
  match fuel with
  | 0 => OutOfFuel
  | S fuel' =>
      let '(ret, w1) := PQconnectPoll NC w in
      match ret with
      | PGRES_POLLING_READING =>
          let '(ec, w2) := async_wait N wait_read w1 in
          if is_error ec then Ok (Some ec, w2) else connect_poll fuel' w2
      | PGRES_POLLING_WRITING =>
          let '(ec, w2) := async_wait N wait_write w1 in
          if is_error ec then Ok (Some ec, w2) else connect_poll fuel' w2
      | PGRES_POLLING_FAILED => Ok (Some connection_failed, w1)
      | PGRES_POLLING_OK => Ok (None, w1)
      | PGRES_POLLING_ACTIVE => connect_poll fuel' w1
      end
  end.

(** [async_connect] (lines 142-176). *)
Definition async_connect (fuel : nat) (conninfo : string) (w : W)
  : outcome (error_code * W) :=
  let w1 := PQconnectStart NC conninfo w in
  match PQstatus NC w1 with
  | CONNECTION_BAD => Ok (pqstatus_failed, w1)
  | _ =>
      let '(failed, w2) := PQsetnonblocking NC w1 in
      if failed then Ok (pqsetnonblocking_failed, w2)
      else
        r ← connect_poll fuel w2;
        match r with
        | (Some ec, w3) => Ok (ec, w3)
        | (None, w3) =>
            let '(ok, w4) := PQenterPipelineMode NC w3 in
            if ok then Ok (success, w4) else Ok (pqenterpipelinemode_failed, w4)
        end
  end.

End Handshake.

(** ** More vocabulary of the statements *)

(** The results the reader passed to [handle] of the handler named [id], oldest
    first. *)
Definition results_handled (c : connection) (id : nat) : list result :=
  (λ call, call.2) <$> filter (λ call, call.1 = id) (handled c).

(** The error code a completion carries. *)
Definition completion_code (k : completion) : error_code :=
  match k with
  | query_completion ec _ => ec
  | pipeline_completion ec => ec
  end.

(** Submitting a list of commands one after the other, up to the first one the
    session refuses. *)
Fixpoint send_commands {W : Type} (N : native W) (w : W) (cmds : list string)
  : bool * W :=
  match cmds with
  | [] => (true, w)
  | cmd :: cmds' =>
      let '(ok, w1) := PQsendQueryParams N w cmd in
      if ok then send_commands N w1 cmds' else (false, w1)
  end.

(** The reader passed to [handle] only what it may, to handlers that exist;
    a handler signals its waiter when and only when it leaves [waiting]; a
    caller is told of success only for a completed handler, and of nothing but
    success or an aborted wait; a single-query handler was given no result
    while [waiting] and exactly the one it holds, or has handed to its caller,
    after; only a single query completes with a result, which is null when
    the query completes with an error. *)
Record exec_inv (c : connection) : Prop := {
  inv_queue : queue_inv c;
  inv_handled : ∀ call, call ∈ handled c →
    call.1 < length (handlers c) ∧ PQresultStatus call.2 ≠ PGRES_PIPELINE_SYNC;
  inv_cv : ∀ id o, handlers c !! id = Some o →
    cv_ (rh o) = if decide (get_status (rh o) = waiting) then 0 else 1;
  inv_delivered : ∀ id o k, handlers c !! id = Some o → delivered o = Some k →
    completion_code k = operation_aborted ∨
    (completion_code k = success ∧ get_status (rh o) = completed);
  inv_single : ∀ id o r, handlers c !! id = Some o →
    body (rh o) = single_query_result_handler r →
    (get_status (rh o) = waiting → results_handled c id = []) ∧
    (get_status (rh o) = completed → delivered o = None →
       results_handled c id = [r]) ∧
    (∀ r', delivered o = Some (query_completion success r') →
       results_handled c id = [r']);
  inv_kind : ∀ id o ec r, handlers c !! id = Some o →
    delivered o = Some (query_completion ec r) →
    (∃ r0, body (rh o) = single_query_result_handler r0) ∧
    (ec ≠ success → r = nullptr)
}.

(** ** More inputs of the examples *)

(** The reader dispatching the results of a list, one after the other. *)
Fixpoint deliver_all (rs : list result) (c : connection) : outcome connection :=
  match rs with
  | [] => Ok c
  | r :: rs' => c' ← dispatch r c; deliver_all rs' c'
  end.

(** The query of [one_query_pending], answered and then returned to its caller;
    the pipeline of [pipeline_pending], answered and then returned. *)
Definition one_query_answered : connection :=
  match deliver_all [tuples_ok 7] one_query_pending with
  | Ok c => c
  | _ => one_query_pending
  end.

Definition one_query_returned : connection := resume 0 one_query_answered.

Definition pipeline_answered : connection :=
  match deliver_all [command_ok 1; command_ok 2; tuples_ok 3; pipeline_sync]
          pipeline_pending with
  | Ok c => c
  | _ => pipeline_pending
  end.



(** The pipeline of [pipeline_pending] with its wait cancelled at once, and
    then given two of its three results. *)
Definition pipeline_cancelled : connection := resume 0 pipeline_pending.

Definition pipeline_cancelled_then_answered : connection :=
  match deliver_all [command_ok 1; command_ok 2] pipeline_cancelled with
  | Ok c => c
  | _ => pipeline_cancelled
  end.

(** A session that accepts every query and has nothing to say. *)
Definition accepting : native unit :=
  {| PQsendQueryParams := λ w _, (true, w);
     PQpipelineSync := λ w, (true, w);
     PQisBusy := λ _, true;
     PQgetResult := λ w, (nullptr, w);
     PQconsumeInput := λ w, (true, w);
     PQflush := λ w, (false, w);
     async_wait := λ _ w, (success, w) |}.

(** A handshake over a scripted session: the session is started, the server
    asks to be read from as long as [inbox] holds something, then the poll
    reports success or failure as the session [accepts]. *)
Definition scripted_connect : native_connect script :=
  {| PQconnectStart := λ _ w, w;
     PQstatus := λ _, CONNECTION_STARTED;
     PQsetnonblocking := λ w, (false, w);
     PQconnectPoll := λ w,
       match inbox w with
       | [] => (if accepts w then PGRES_POLLING_OK else PGRES_POLLING_FAILED, w)
       | _ :: rs =>
           (PGRES_POLLING_READING,
            {| inbox := rs; readiness := readiness w; consumes := consumes w;
               accepts := accepts w |})
       end;
     PQenterPipelineMode := λ w, (consumes w, w) |}.

(** The reader fails first, in [PQconsumeInput] (line 390); the group then
    cancels the writer, which completes with the code it registered for
    cancellation (line 332). *)
Definition reader_failed_first : group_result :=
  {| order := [1; 0]; ec1 := operation_aborted; ec2 := pqconsumeinput_failed |}.

(** A session whose socket becomes readable and whose [PQconsumeInput] then
    fails. *)
Definition failing_consume : script :=
  {| inbox := []; readiness := []; consumes := false; accepts := true |}.

(** The writer fails first, in a wait on the socket; the group then cancels the
    reader, whose wait on the socket ends with [operation_aborted]. *)
Definition writer_failed_first : group_result :=
  {| order := [0; 1]; ec1 := transport_error 104; ec2 := operation_aborted |}.

End Asiofiedpq.

Module Psql.

(** ** Types and values of parameters *)

(** [Oid] is [unsigned int]; [std::type_index] is a name for [typeid(T)]. *)
Definition Oid := Z.
Definition type_index := nat.

Inductive text_kind := c_string | string_view | std_string.

(** The shapes of a decayed parameter type the traits tell apart.  Floating
    point types are serialized like integral ones and are left out. *)
Inductive ty :=
| t_integral (size : nat)                      (* is_integral, std::byte; sizeof(T) *)
| t_time_point                                 (* system_clock::time_point *)
| t_text (k : text_kind)
| t_user_defined (id : type_index) (name : string) (fields : list ty)
| t_tuple (fields : list ty)
| t_array (value_type : ty).

Inductive value :=
| v_integral (size : nat) (z : Z)
| v_time_point (us : Z)                        (* microseconds since the Unix epoch *)
| v_text (k : text_kind) (s : list Byte.byte)
| v_user_defined (id : type_index) (name : string) (fields : list value)
| v_tuple (fields : list value)
| v_array (value_type : ty) (elems : list value).

Fixpoint type_of (v : value) : ty :=
  match v with
  | v_integral size _ => t_integral size
  | v_time_point _ => t_time_point
  | v_text k _ => t_text k
  | v_user_defined id name fields => t_user_defined id name (map type_of fields)
  | v_tuple fields => t_tuple (map type_of fields)
  | v_array T _ => t_array T
  end.

(** ** extract_new_udts *)

Record udt_pair := { name : string; type : type_index }.

#[global] Instance udt_pair_eq_dec : EqDecision udt_pair.
Proof. solve_decision. Defined.

(** [extract_new_udts<T>(new_udts, omp)]: the vector is passed by reference and
    appended to, so it is threaded through.  The three specialisations of
    [extract_new_udts_impl] are the array, the user-defined and the tuple case;
    the primary template does nothing. *)
Fixpoint extract_new_udts (T : ty) (omp : gmap type_index Oid) (new_udts : list udt_pair)
  : list udt_pair :=
  match T with
  | t_array V => extract_new_udts V omp new_udts
  | t_user_defined id nm fields =>
      let new_udts :=
        if decide (omp !! id = None)
        then new_udts ++ [{| name := nm; type := id |}]
        else new_udts in
      foldl (λ acc U, extract_new_udts U omp acc) new_udts fields
  | t_tuple fields =>
      foldl (λ acc U, extract_new_udts U omp acc) new_udts fields
  | _ => new_udts
  end.

(** The types that occur in a type: the type itself, what occurs in a field of
    a composite, what occurs in the element type of an array. *)
Inductive occurs (U : ty) : ty → Prop :=
| occurs_here : occurs U U
| occurs_user_defined id nm fields F :
    F ∈ fields → occurs U F → occurs U (t_user_defined id nm fields)
| occurs_tuple fields F :
    F ∈ fields → occurs U F → occurs U (t_tuple fields)
| occurs_array V :
    occurs U V → occurs U (t_array V).

(** ** Serialization *)

Definition byte_of_Z (z : Z) : Byte.byte :=
  match Byte.of_N (Z.to_N (Z.land z 255)) with
  | Some b => b
  | None => Byte.x00
  end.

(** [boost::endian::endian_store<T, sizeof(T), order::big>]: most significant
    byte first, two's complement. *)
Definition endian_store_big (size : nat) (z : Z) : list Byte.byte :=
  map (λ i, byte_of_Z (Z.shiftr z (8 * Z.of_nat i))) (rev (seq 0 size)).

(** Appending a C string to a [std::string] copies up to the terminator. *)
Fixpoint c_str (s : list Byte.byte) : list Byte.byte :=
  match s with
  | [] => []
  | b :: s' => if Byte.eqb b Byte.x00 then [] else b :: c_str s'
  end.

(** Conversion to [int] (32 bits, two's complement). *)
Definition to_int (z : Z) : Z := ((z + 2 ^ 31) mod 2 ^ 32 - 2 ^ 31)%Z.

Section Serialization.
(** [oid_of<T>(omp)] and [size_of(value)] live in [psql/detail/oid_of.hpp] and
    [psql/detail/size_of.hpp], which are not at hand; the serializer and the
    parameter block are parametric in them.  [size_of] returns a [size_t]. *)
Variable oid_of : gmap type_index Oid → ty → Oid.
Variable size_of : value → Z.
Variable omp : gmap type_index Oid.

(** The bytes [serialize_impl<T>::apply] appends to the buffer.  A member of a
    composite is written by [serialize_member]: its OID, its [size_of] and its
    encoding; an element of an array as its [size_of] and its encoding. *)
Fixpoint encode (v : value) : list Byte.byte :=
  match v with
  | v_integral size z => endian_store_big size z
  | v_time_point us => endian_store_big 8 (us - 946684800000000)
  | v_text c_string s => c_str s
  | v_text _ s => s
  | v_user_defined _ _ fields | v_tuple fields =>
      endian_store_big 4 (Z.of_nat (length fields)) ++
      mjoin (map (λ f, endian_store_big 4 (oid_of omp (type_of f)) ++
                       endian_store_big 4 (size_of f) ++ encode f) fields)
  | v_array T elems =>
      endian_store_big 4 1 ++ endian_store_big 4 0 ++
      endian_store_big 4 (oid_of omp T) ++
      endian_store_big 4 (Z.of_nat (length elems)) ++
      endian_store_big 4 0 ++
      mjoin (map (λ e, endian_store_big 4 (size_of e) ++ encode e) elems)
  end.

(** [serialize]: appends the encoding and returns where it starts, as an offset
    from the start of the buffer. *)
Definition serialize (buffer : list Byte.byte) (v : value) : nat * list Byte.byte :=
  (length buffer, buffer ++ encode v).

(** ** The parameter block *)

(** A [const char*] into [buffer_] is an offset from [buffer_.data()]; [None]
    is the null pointer. *)
Record params := {
  buffer_ : list Byte.byte;
  types_ : list Oid;
  values_ : list (option Z);
  lengths_ : list Z;
  formats_ : list Z
}.

Definition empty_params : params :=
  {| buffer_ := []; types_ := []; values_ := []; lengths_ := []; formats_ := [] |}.

Definition add (v : value) (p : params) : params :=
  {| buffer_ := (serialize (buffer_ p) v).2;
     types_ := types_ p ++ [oid_of omp (type_of v)];
     values_ := values_ p;
     lengths_ := lengths_ p ++ [to_int (size_of v)];
     formats_ := formats_ p |}.

(** The loop of [convert_offsets] over the remaining lengths, [offset] being
    the [size_t] counter. *)
Fixpoint convert_offsets_from (offset : Z) (ls : list Z) (p : params) : params :=
  match ls with
  | [] => p
  | len :: ls' =>
      convert_offsets_from ((offset + len) mod 2 ^ 64)%Z ls'
        {| buffer_ := buffer_ p;
           types_ := types_ p;
           values_ := values_ p ++ [if decide (len ≠ 0)%Z then Some offset else None];
           lengths_ := lengths_ p;
           formats_ := formats_ p ++ [1%Z] |}
  end.

Definition convert_offsets (p : params) : params :=
  convert_offsets_from 0 (lengths_ p) p.

(** The constructor [params(omp, args...)]. *)
Definition make_params (args : list value) : params :=
  convert_offsets (foldl (λ p v, add v p) empty_params args).

End Serialization.

(** Modelled from the spec: [size_of] ([psql/detail/size_of.hpp]) is not at
    hand; the spec's contract is that it is recursive and matches [serialize]
    byte for byte.  It is used for the concrete parameter blocks below. *)
Fixpoint size_of (v : value) : Z :=
  match v with
  | v_integral size _ => Z.of_nat size
  | v_time_point _ => 8
  | v_text c_string s => Z.of_nat (length (c_str s))
  | v_text _ s => Z.of_nat (length s)
  | v_user_defined _ _ fields | v_tuple fields =>
      4 + foldr (λ f n, 8 + size_of f + n) 0 fields
  | v_array _ elems =>
      20 + foldr (λ e n, 4 + size_of e + n) 0 elems
  end%Z.

(** ** Vocabulary of the statements *)

(** The number a sequence of bytes spells, most significant byte first. *)
Definition big_endian_value (bs : list Byte.byte) : Z :=
  foldl (λ acc b, acc * 256 + Z.of_N (Byte.to_N b))%Z 0%Z bs.

(** ** Inputs of the examples *)

(** The OIDs PostgreSQL assigns to the built-in types used in the examples
    (int2 21, int4 23, int8 20, text 25, timestamp 1114); 0 elsewhere. *)
Definition example_oid_of (_ : gmap type_index Oid) (T : ty) : Oid :=
  match T with
  | t_integral 2 => 21
  | t_integral 4 => 23
  | t_integral 8 => 20
  | t_text _ => 25
  | t_time_point => 1114
  | _ => 0
  end%Z.

(** [struct point { int32_t x; int32_t y; }], registered under the name
    [point]. *)
Definition point : ty := t_user_defined 1 "point" [t_integral 4; t_integral 4].

End Psql.

(** * Properties of the result-handler queue and the run-loop *)

Section HandlerQueue.
Import Asiofiedpq.

(** ** The handlers *)

Lemma handle_single h st r0 res :
  body h = single_query_result_handler r0 →
  handle h st res =
    Ok ({| status_ := completed; cv_ := S (cv_ h);
           body := single_query_result_handler res |}, st).
Proof. intros Hb. unfold handle. rewrite Hb. reflexivity. Qed.

Lemma write_result_Some st pos res :
  (0 ≤ pos < Z.of_nat (length st))%Z →
  ∃ pq, st !! Z.to_nat pos = Some pq ∧
        write_result st pos res =
          Some (<[Z.to_nat pos := {| command := command pq; pq_result := res |}]> st).
Proof.
  intros [H0 Hlt]. unfold write_result.
  destruct (decide (0 ≤ pos)%Z) as [_|]; [|lia].
  destruct (lookup_lt_is_Some_2 st (Z.to_nat pos)) as [pq Hpq]; [lia|].
  exists pq. rewrite Hpq. done.
Qed.

Lemma write_result_None st pos res :
  (pos < 0 ∨ Z.of_nat (length st) ≤ pos)%Z → write_result st pos res = None.
Proof.
  intros Hout. unfold write_result.
  destruct (decide (0 ≤ pos)%Z) as [H0|]; [|done].
  rewrite (proj2 (lookup_ge_None st (Z.to_nat pos))); [done|lia].
Qed.

(** The status never moves away from [completed] or back to [waiting] inside
    [handle]: it is either kept or set to [completed]. *)
Lemma handle_status h st res h' st' :
  handle h st res = Ok (h', st') →
  get_status h' = completed ∨ get_status h' = get_status h.
Proof.
  unfold handle. destruct (body h) as [r0|f l n].
  - intros [= <- <-]. by left.
  - destruct (decide (n ≠ 0)%Z).
    + intros [= <- <-]. destruct (decide _); [by left|by right].
    + destruct (write_result st f res); [|done].
      intros [= <- <-]. destruct (decide _); [by left|by right].
Qed.

(** ** A handler fed several results *)

Lemma handle_all_app h st rs1 rs2 :
  handle_all h st (rs1 ++ rs2) =
    '(h', st') ← handle_all h st rs1; handle_all h' st' rs2.
Proof.
  revert h st. induction rs1 as [|r rs1 IH]; intros h st; simpl; [done|].
  destruct (handle h st r) as [[h1 st1]| |]; simpl; [apply IH|done|done].
Qed.

Lemma with_body_with_body h b1 b2 : with_body (with_body h b1) b2 = with_body h b2.
Proof. done. Qed.

Lemma with_body_body h : with_body h (body h) = h.
Proof. by destruct h. Qed.

(** One [handle] of a pipeline handler outside dummy mode, inside the
    container: the slot under [first_] takes the result, [first_] moves on. *)
Lemma handle_pipeline_write h st res p l :
  body h = pipeline_result_handler (Z.of_nat p) l 0 →
  p < length st →
  ∃ pq, st !! p = Some pq ∧
    handle h st res =
      Ok (let h' := with_body h (pipeline_result_handler (Z.of_nat (S p)) l 0) in
          if decide (Z.of_nat (S p) = l) then complete h' else h',
          <[p := {| command := command pq; pq_result := res |}]> st).
Proof.
  intros Hb Hlt. unfold handle. rewrite Hb.
  destruct (decide (0 ≠ 0)%Z) as [|_]; [done|].
  destruct (write_result_Some st (Z.of_nat p) res) as (pq & Hpq & ->); [lia|].
  rewrite Nat2Z.id in *. exists pq. split; [done|].
  replace (Z.of_nat p + 1)%Z with (Z.of_nat (S p)) by lia. done.
Qed.

(** Results that do not yet exhaust the range: each goes to the next slot, the
    status is untouched. *)
Lemma handle_all_pipeline_prefix rs : ∀ h st p l,
  body h = pipeline_result_handler (Z.of_nat p) l 0 →
  (Z.of_nat (p + length rs) < l)%Z →
  p + length rs ≤ length st →
  ∃ st',
    handle_all h st rs =
      Ok (with_body h (pipeline_result_handler (Z.of_nat (p + length rs)) l 0), st') ∧
    length st' = length st ∧
    (∀ k r, rs !! k = Some r →
       ∃ pq, st !! (p + k) = Some pq ∧
             st' !! (p + k) = Some {| command := command pq; pq_result := r |}) ∧
    (∀ j, j < p ∨ p + length rs ≤ j → st' !! j = st !! j).
Proof.
  induction rs as [|r rs IH]; intros h st p l Hb Hlt Hlen; simpl in *.
  - exists st. rewrite Nat.add_0_r, <- Hb, with_body_body.
    split; [done|]. split; [done|]. split; [|done].
    intros k r Hk. by rewrite lookup_nil in Hk.
  - destruct (handle_pipeline_write h st r p l Hb) as (pq & Hpq & ->); [lia|].
    rewrite decide_False by lia. simpl.
    destruct (IH (with_body h (pipeline_result_handler (Z.of_nat (S p)) l 0))
                (<[p := {| command := command pq; pq_result := r |}]> st) (S p) l)
      as (st' & -> & Hlen' & Hin & Hout); [done|lia|rewrite length_insert; lia|].
    exists st'. rewrite with_body_with_body.
    replace (S p + length rs) with (p + S (length rs)) by lia.
    split; [done|]. split; [by rewrite Hlen', length_insert|]. split.
    + intros [|k] r' Hk; simpl in Hk.
      * injection Hk as <-. exists pq. rewrite Nat.add_0_r. split; [done|].
        rewrite Hout by lia. apply list_lookup_insert_eq. lia.
      * destruct (Hin k r' Hk) as (pq' & Hpq' & Hst').
        rewrite list_lookup_insert_ne in Hpq' by lia.
        exists pq'. by replace (p + S k) with (S p + k) by lia.
    + intros j Hj. rewrite Hout by lia. apply list_lookup_insert_ne. lia.
Qed.

(** In dummy mode: results are counted down and the container is not touched;
    the status is untouched until the count reaches zero. *)
Lemma handle_dummy h st res f l n :
  body h = pipeline_result_handler f l n →
  (0 < n < 2 ^ 64)%Z →
  handle h st res =
    Ok (let h' := with_body h (pipeline_result_handler f l (n - 1)) in
        if decide (n - 1 = 0)%Z then complete h' else h', st).
Proof.
  intros Hb Hn. unfold handle. rewrite Hb.
  rewrite decide_True by lia. unfold size_t_wrap.
  by rewrite Z.mod_small by lia.
Qed.

Lemma handle_all_dummy_prefix rs : ∀ h st f l n,
  body h = pipeline_result_handler f l n →
  (Z.of_nat (length rs) < n < 2 ^ 64)%Z →
  handle_all h st rs =
    Ok (with_body h (pipeline_result_handler f l (n - Z.of_nat (length rs))), st).
Proof.
  induction rs as [|r rs IH]; intros h st f l n Hb Hn; simpl in *.
  - by rewrite Z.sub_0_r, <- Hb, with_body_body.
  - rewrite (handle_dummy h st r f l n Hb) by lia.
    rewrite decide_False by lia. simpl.
    rewrite (IH _ st f l (n - 1)%Z) by (done || lia).
    rewrite with_body_with_body.
    by replace (n - 1 - Z.of_nat (length rs))%Z
      with (n - Z.of_nat (S (length rs)))%Z by lia.
Qed.

(** Results that exhaust the range: the last one completes the handler. *)
Lemma handle_all_pipeline_full rs r h st p :
  body h = pipeline_result_handler (Z.of_nat p) (Z.of_nat (p + S (length rs))) 0 →
  p + S (length rs) ≤ length st →
  ∃ st',
    handle_all h st (rs ++ [r]) =
      Ok (complete (with_body h
            (pipeline_result_handler (Z.of_nat (p + S (length rs)))
               (Z.of_nat (p + S (length rs))) 0)), st') ∧
    length st' = length st ∧
    (∀ k r', (rs ++ [r]) !! k = Some r' →
       ∃ pq, st !! (p + k) = Some pq ∧
             st' !! (p + k) = Some {| command := command pq; pq_result := r' |}) ∧
    (∀ j, j < p ∨ p + S (length rs) ≤ j → st' !! j = st !! j).
Proof.
  intros Hb Hlen. rewrite handle_all_app.
  destruct (handle_all_pipeline_prefix rs h st p _ Hb)
    as (st1 & -> & Hlen1 & Hin1 & Hout1); [lia|lia|].
  cbn [mbind outcome_bind handle_all].
  destruct (handle_pipeline_write
              (with_body h (pipeline_result_handler (Z.of_nat (p + length rs))
                              (Z.of_nat (p + S (length rs))) 0))
              st1 r (p + length rs) (Z.of_nat (p + S (length rs))))
    as (pq & Hpq & ->); [done|lia|].
  cbn [mbind outcome_bind].
  rewrite decide_True by lia. rewrite with_body_with_body.
  replace (S (p + length rs)) with (p + S (length rs)) by lia.
  eexists. split; [done|]. split; [by rewrite length_insert|]. split.
  - intros k r' Hk. destruct (decide (k < length rs)) as [Hlt|Hge].
    + rewrite lookup_app_l in Hk by done.
      destruct (Hin1 k r' Hk) as (pq' & Hpq' & Hst1). exists pq'. split; [done|].
      rewrite list_lookup_insert_ne by lia. done.
    + assert (k = length rs) as ->.
      { apply lookup_lt_Some in Hk. rewrite length_app in Hk. simpl in Hk. lia. }
      rewrite lookup_app_r in Hk by lia. rewrite Nat.sub_diag in Hk.
      injection Hk as <-. rewrite Hout1 in Hpq by lia. exists pq. split; [done|].
      apply list_lookup_insert_eq. lia.
  - intros j Hj. rewrite list_lookup_insert_ne by lia. apply Hout1. lia.
Qed.

(** ** The reader's dispatch *)

Lemma dispatch_sync res c :
  PQresultStatus res = PGRES_PIPELINE_SYNC → dispatch res c = Ok c.
Proof. intros Hs. unfold dispatch. by rewrite decide_True. Qed.

Lemma dispatch_front res c id rest o :
  PQresultStatus res ≠ PGRES_PIPELINE_SYNC →
  result_handlers_ c = id :: rest →
  handlers c !! id = Some o →
  dispatch res c =
    '(rh', storage') ← handle (rh o) (storage o) res;
    Ok {| handlers :=
            <[id := {| rh := rh'; storage := storage'; delivered := delivered o |}]>
              (handlers c);
          result_handlers_ :=
            if bool_decide (get_status rh' = completed) then rest else id :: rest;
          write_cv_ := write_cv_ c;
          popped :=
            if bool_decide (get_status rh' = completed) then popped c ++ [id]
            else popped c;
          handled := handled c ++ [(id, res)] |}.
Proof.
  intros Hs Hq Ho. unfold dispatch. rewrite decide_False by done.
  rewrite Hq, Ho. reflexivity.
Qed.

Lemma dispatch_empty res c :
  PQresultStatus res ≠ PGRES_PIPELINE_SYNC →
  result_handlers_ c = [] →
  dispatch res c = Fault assertion_failed.
Proof.
  intros Hs Hq. unfold dispatch. rewrite decide_False by done. by rewrite Hq.
Qed.

(** ** The invariant of the queue *)

Lemma queue_inv_names c id :
  queue_inv c → id ∈ popped c ++ result_handlers_ c ↔ id < length (handlers c).
Proof.
  intros [Ho _ _]. rewrite Ho, elem_of_seq. lia.
Qed.

Lemma queue_inv_NoDup c : queue_inv c → NoDup (popped c ++ result_handlers_ c).
Proof. intros [Ho _ _]. rewrite Ho. apply NoDup_seq. Qed.

Lemma queue_inv_new : queue_inv new_connection.
Proof. split; [done| |]; intros id Hid; by apply elem_of_nil in Hid. Qed.

Lemma status_of_enqueue_old c o id :
  id < length (handlers c) → status_of (enqueue o c) id = status_of c id.
Proof.
  intros Hlt. unfold status_of, enqueue; simpl. by rewrite lookup_app_l.
Qed.

Lemma status_of_enqueue_new c o :
  status_of (enqueue o c) (length (handlers c)) = Some (get_status (rh o)).
Proof.
  unfold status_of, enqueue; simpl.
  rewrite lookup_app_r by lia. by rewrite Nat.sub_diag.
Qed.

Lemma queue_inv_enqueue c o :
  get_status (rh o) = waiting → queue_inv c → queue_inv (enqueue o c).
Proof.
  intros Hw Hinv. pose proof (queue_inv_names c) as Hnames.
  destruct Hinv as [Ho Hp Hq]. split.
  - unfold enqueue; simpl. rewrite length_app; simpl.
    rewrite Nat.add_1_r, seq_S, app_assoc, Ho. reflexivity.
  - intros id Hid. simpl in Hid.
    rewrite status_of_enqueue_old; [by apply Hp|].
    apply Hnames; [by split|]. apply elem_of_app. by left.
  - intros id Hid. simpl in Hid. apply elem_of_app in Hid as [Hid|Hid].
    + rewrite status_of_enqueue_old; [by apply Hq|].
      apply Hnames; [by split|]. apply elem_of_app. by right.
    + apply list_elem_of_singleton in Hid as ->.
      rewrite status_of_enqueue_new. by rewrite Hw.
Qed.

Lemma queue_inv_front c id rest :
  queue_inv c → result_handlers_ c = id :: rest →
  is_Some (handlers c !! id) ∧ (id ∉ popped c) ∧ (id ∉ rest).
Proof.
  intros Hinv Hq. pose proof (queue_inv_NoDup c Hinv) as Hnd.
  rewrite Hq in Hnd. apply NoDup_app in Hnd as (_ & Hdisj & Hndq).
  apply NoDup_cons in Hndq as [Hnotin _]. split; [|split].
  - apply lookup_lt_is_Some. apply (queue_inv_names c id Hinv).
    rewrite Hq. apply elem_of_app. right. by left.
  - intros Hin. apply (Hdisj id Hin). by left.
  - done.
Qed.

Lemma status_of_insert c hs id o id' :
  handlers c !! id = Some o →
  (λ o, get_status (rh o)) <$> ((<[id := hs]> (handlers c)) !! id') =
    if decide (id = id') then Some (get_status (rh hs)) else status_of c id'.
Proof.
  intros Ho. destruct (decide (id = id')) as [<-|Hne].
  - rewrite list_lookup_insert_eq; [done|]. by eapply lookup_lt_Some.
  - by rewrite list_lookup_insert_ne.
Qed.

Lemma queue_inv_dispatch res c c' :
  queue_inv c → dispatch res c = Ok c' → queue_inv c'.
Proof.
  intros Hinv Hd.
  destruct (decide (PQresultStatus res = PGRES_PIPELINE_SYNC)) as [Hs|Hs].
  { rewrite dispatch_sync in Hd by done. by injection Hd as <-. }
  destruct (result_handlers_ c) as [|id rest] eqn:Hq.
  { by rewrite dispatch_empty in Hd. }
  destruct (queue_inv_front c id rest Hinv Hq) as ([o Ho] & Hnp & Hnr).
  rewrite (dispatch_front res c id rest o Hs Hq Ho) in Hd.
  destruct (handle (rh o) (storage o) res) as [[h' st']| |] eqn:Hh; try done.
  simpl in Hd. injection Hd as <-.
  pose proof (handle_status _ _ _ _ _ Hh) as Hst.
  destruct Hinv as [Hord Hp Hqd]. rewrite Hq in Hord, Hqd.
  assert (Hw : get_status (rh o) = waiting).
  { specialize (Hqd id (list_elem_of_here _ _)). unfold status_of in Hqd.
    rewrite Ho in Hqd. simpl in Hqd. congruence. }
  split; simpl.
  - rewrite length_insert. case_bool_decide; [|done].
    by rewrite <- app_assoc.
  - intros id' Hid'. unfold status_of; simpl.
    rewrite (status_of_insert c _ id o id' Ho); simpl.
    case_bool_decide as Hc.
    + apply elem_of_app in Hid' as [Hid'|Hid'].
      * rewrite decide_False; [by apply Hp|]. by intros <-.
      * apply list_elem_of_singleton in Hid' as ->. rewrite decide_True by done.
        by rewrite Hc.
    + rewrite decide_False; [by apply Hp|]. by intros <-.
  - intros id' Hid'. unfold status_of; simpl.
    rewrite (status_of_insert c _ id o id' Ho); simpl.
    case_bool_decide as Hc.
    + rewrite decide_False; [apply Hqd; by right|]. by intros <-.
    + destruct (decide (id = id')) as [<-|Hne]; [|apply Hqd; set_solver].
      destruct Hst as [Hst|Hst]; [done|]. by rewrite Hst, Hw.
Qed.

Lemma resume_operation_status o :
  get_status (rh (resume_operation o)) = get_status (rh o).
Proof.
  unfold resume_operation.
  destruct (delivered o); [done|].
  destruct (body (rh o)); destruct (get_status (rh o)) eqn:Hs; simpl; done.
Qed.

Lemma status_of_resume id c id' : status_of (resume id c) id' = status_of c id'.
Proof.
  unfold resume. destruct (handlers c !! id) as [o|] eqn:Ho; [|done].
  unfold status_of at 1; simpl. rewrite (status_of_insert c _ id o id' Ho).
  destruct (decide (id = id')) as [<-|]; [|done].
  unfold status_of. rewrite Ho; simpl. by rewrite resume_operation_status.
Qed.

Lemma queue_inv_resume id c : queue_inv c → queue_inv (resume id c).
Proof.
  intros [Hord Hp Hq].
  assert (Hlen : length (handlers (resume id c)) = length (handlers c)).
  { unfold resume. destruct (handlers c !! id); [|done]. simpl. apply length_insert. }
  assert (Hqueue : result_handlers_ (resume id c) = result_handlers_ c).
  { unfold resume. by destruct (handlers c !! id). }
  assert (Hpop : popped (resume id c) = popped c).
  { unfold resume. by destruct (handlers c !! id). }
  split.
  - by rewrite Hpop, Hqueue, Hlen.
  - intros id' Hid'. rewrite status_of_resume. apply Hp. by rewrite <- Hpop.
  - intros id' Hid'. rewrite status_of_resume. apply Hq. by rewrite <- Hqueue.
Qed.

Lemma queue_inv_step c c' : queue_inv c → step c c' → queue_inv c'.
Proof.
  intros Hinv Hstep. destruct Hstep as [c|c st first last|c res c' Hd|c id].
  - by apply queue_inv_enqueue.
  - by apply queue_inv_enqueue.
  - by eapply queue_inv_dispatch.
  - by apply queue_inv_resume.
Qed.

Lemma queue_inv_rtc c c' : queue_inv c → rtc step c c' → queue_inv c'.
Proof. intros Hinv Hsteps. induction Hsteps; eauto using queue_inv_step. Qed.

Lemma reachable_queue_inv c : reachable c → queue_inv c.
Proof. apply queue_inv_rtc, queue_inv_new. Qed.

(** ** The reader's loops only dispatch *)

Lemma delivers_step c c' : delivers c c' → step c c'.
Proof. intros [res Hd]. by eapply step_dispatch. Qed.

Lemma rtc_delivers_step c c' : rtc delivers c c' → rtc step c c'.
Proof. apply rtc_subrel. intros ? ?. apply delivers_step. Qed.

Lemma delivers_queue_front c c' :
  delivers c c' →
  ∃ k, k ≤ 1 ∧ popped c' = popped c ++ take k (result_handlers_ c) ∧
       result_handlers_ c' = drop k (result_handlers_ c).
Proof.
  intros [res Hd]. unfold dispatch in Hd. destruct (decide _) as [|Hs].
  { injection Hd as <-. exists 0. simpl. rewrite app_nil_r. auto. }
  destruct (result_handlers_ c) as [|id rest]; [done|].
  destruct (handlers c !! id) as [o|]; [|done].
  destruct (handle (rh o) (storage o) res) as [[h' st']| |]; try done.
  simpl in Hd. injection Hd as <-. simpl. case_bool_decide.
  - exists 1. simpl. rewrite take_0, drop_0. auto.
  - exists 0. simpl. rewrite app_nil_r. auto.
Qed.

(** Over any run of the reader, what left the queue is a prefix of what was
    in it, in queue order, and nothing else moved. *)
Lemma rtc_delivers_queue_prefix c c' :
  rtc delivers c c' →
  ∃ k, popped c' = popped c ++ take k (result_handlers_ c) ∧
       result_handlers_ c' = drop k (result_handlers_ c).
Proof.
  intros Hrun. induction Hrun as [c|c c1 c2 Hd _ IH].
  - exists 0. simpl. by rewrite app_nil_r.
  - destruct (delivers_queue_front _ _ Hd) as (k1 & _ & Hp1 & Hq1).
    destruct IH as (k2 & Hp2 & Hq2).
    exists (k1 + k2). split.
    + rewrite Hp2, Hp1, Hq1, <- app_assoc. f_equal. apply take_take_drop.
    + rewrite Hq2, Hq1. apply drop_drop.
Qed.

Section Reader.
Context {W : Type} (N : native W).

Lemma reader_drain_delivers fuel w c w' c' :
  reader_drain N fuel w c = Ok (w', c') → rtc delivers c c'.
Proof.
  revert w c. induction fuel as [|fuel IH]; intros w c; simpl; [done|].
  destruct (PQisBusy N w); [by intros [= <- <-]|].
  destruct (PQgetResult N w) as [res w1]. destruct res as [r|].
  - destruct (dispatch (Some r) c) as [c1| |] eqn:Hd; simpl; try done.
    intros Hrest. eapply rtc_l; [by exists (Some r)|by eapply IH].
  - destruct (PQisBusy N w1); [by intros [= <- <-]|].
    destruct (PQgetResult N w1) as [res2 w2]. destruct res2 as [r|].
    + destruct (dispatch (Some r) c) as [c1| |] eqn:Hd; simpl; try done.
      intros Hrest. eapply rtc_l; [by exists (Some r)|by eapply IH].
    + by intros [= <- <-].
Qed.

Lemma reader_delivers fuel w c ec w' c' :
  reader N fuel w c = Ok (ec, w', c') → rtc delivers c c'.
Proof.
  revert w c. induction fuel as [|fuel IH]; intros w c; [done|].
  cbn [reader].
  destruct (reader_drain N (S fuel) w c) as [[w1 c1]| |] eqn:Hd; try done.
  cbn [mbind outcome_bind].
  apply reader_drain_delivers in Hd.
  destruct (reader_refill N w1) as [[ec'|] w2].
  - intros [= <- <- <-]. done.
  - intros Hrest. etrans; [done|by eapply IH].
Qed.

(** ** What the reader reads is what it dispatches *)

Lemma deliver_all_app rs1 rs2 c :
  deliver_all (rs1 ++ rs2) c = c1 ← deliver_all rs1 c; deliver_all rs2 c1.
Proof.
  revert c. induction rs1 as [|r rs1 IH]; intros c; cbn [deliver_all app]; [done|].
  destruct (dispatch r c) as [c1| |]; cbn [mbind outcome_bind]; [apply IH|done|done].
Qed.

Lemma deliver_all_delivers rs : ∀ c c', deliver_all rs c = Ok c' → rtc delivers c c'.
Proof.
  induction rs as [|r rs IH]; intros c c'; cbn [deliver_all].
  - by intros [= <-].
  - destruct (dispatch r c) as [c1| |] eqn:Hd; try done. cbn [mbind outcome_bind].
    intros Hrest. eapply rtc_l; [by exists r|by apply IH].
Qed.

(** The inner loop dispatches, in order, each result it got. *)
Lemma reader_drain_drained fuel w c w' c' :
  reader_drain N fuel w c = Ok (w', c') →
  deliver_all (drained N fuel w).1 c = Ok c' ∧ (drained N fuel w).2 = w'.
Proof.
  revert w c. induction fuel as [|fuel IH]; intros w c; [done|].
  cbn [reader_drain drained].
  destruct (PQisBusy N w); [by intros [= <- <-]|].
  destruct (PQgetResult N w) as [res w1]. destruct res as [r|].
  - destruct (dispatch (Some r) c) as [c1| |] eqn:Hd; try done.
    cbn [mbind outcome_bind]. intros Hrest. apply IH in Hrest as [Hdel Hw].
    destruct (drained N fuel w1) as [rs w2]. cbn [fst snd deliver_all] in *.
    rewrite Hd. by cbn [mbind outcome_bind].
  - destruct (PQisBusy N w1); [by intros [= <- <-]|].
    destruct (PQgetResult N w1) as [res2 w2]. destruct res2 as [r|].
    + destruct (dispatch (Some r) c) as [c1| |] eqn:Hd; try done.
      cbn [mbind outcome_bind]. intros Hrest. apply IH in Hrest as [Hdel Hw].
      destruct (drained N fuel w2) as [rs w3]. cbn [fst snd deliver_all] in *.
      rewrite Hd. by cbn [mbind outcome_bind].
    + by intros [= <- <-].
Qed.

(** So does the reader half over its whole run. *)
Lemma reader_received fuel w c ec w' c' :
  reader N fuel w c = Ok (ec, w', c') → deliver_all (received N fuel w) c = Ok c'.
Proof.
  revert w c. induction fuel as [|fuel IH]; intros w c; [done|].
  cbn [reader received].
  destruct (reader_drain N (S fuel) w c) as [[w1 c1]| |] eqn:Hd; try done.
  cbn [mbind outcome_bind].
  apply reader_drain_drained in Hd as [Hdel Hw].
  destruct (drained N (S fuel) w) as [rs w1']. cbn [fst snd] in Hdel, Hw. subst w1'.
  destruct (reader_refill N w1) as [[ec'|] w2].
  - by intros [= <- <- <-].
  - intros Hrest. rewrite deliver_all_app, Hdel. cbn [mbind outcome_bind].
    by eapply IH.
Qed.

(** The results passed to [handle] are the results dispatched, sync markers
    left out, in the same order. *)
Lemma deliver_all_handled rs : ∀ c c',
  deliver_all rs c = Ok c' →
  (handled c').*2 =
    (handled c).*2 ++ filter (λ r, PQresultStatus r ≠ PGRES_PIPELINE_SYNC) rs.
Proof.
  induction rs as [|r rs IH]; intros c c'; cbn [deliver_all].
  - intros [= <-]. by rewrite app_nil_r.
  - destruct (dispatch r c) as [c1| |] eqn:Hd; try done. cbn [mbind outcome_bind].
    intros Hrest. rewrite (IH _ _ Hrest). unfold dispatch in Hd.
    destruct (decide (PQresultStatus r = PGRES_PIPELINE_SYNC)) as [Hs|Hs].
    + injection Hd as <-. rewrite filter_cons_False; [done|]. by intros ?.
    + rewrite filter_cons_True by done.
      destruct (result_handlers_ c) as [|id rest]; [done|].
      destruct (handlers c !! id) as [o|]; [|done].
      destruct (handle (rh o) (storage o) r) as [[h' st']| |]; try done.
      cbn [mbind outcome_bind] in Hd. injection Hd as <-. cbn [handled].
      rewrite fmap_app. cbn [fmap list_fmap snd]. by rewrite <- app_assoc.
Qed.

(** The writer ends on the first wake-up that is not a cancelled wait. *)
Lemma writer_exits fuel ec wakeups w :
  ec ≠ operation_aborted →
  writer N fuel (timer_completed ec :: wakeups) w = Ok (ec, w).
Proof. intros Hec. simpl. by rewrite decide_True. Qed.

(** On a cancelled wait it flushes and waits again. *)
Lemma writer_reenters fuel wakeups w :
  writer N fuel (timer_completed operation_aborted :: wakeups) w =
    r ← writer_flush N fuel w;
    match r with
    | (Some ec', w1) => Ok (ec', w1)
    | (None, w1) => writer N fuel wakeups w1
    end.
Proof. reflexivity. Qed.

(** The submission loop ends: it stops at [last], at a refused query, or at the
    first step out of the container. *)
Lemma send_pipeline_ends st last fuel : ∀ w it,
  0 < fuel →
  (it < 0 ∨ Z.of_nat (length st) < it + Z.of_nat fuel)%Z →
  send_pipeline N fuel w st it last ≠ OutOfFuel.
Proof.
  induction fuel as [|fuel IH]; intros w it Hpos Hfuel; [lia|].
  cbn [send_pipeline].
  destruct (decide (it = last)); [done|].
  destruct (decide (0 ≤ it)%Z) as [H0|]; [|done].
  destruct (st !! Z.to_nat it) as [pq|] eqn:Hpq; [|done].
  destruct (PQsendQueryParams N w (command pq)) as [[|] w1]; [|done].
  apply lookup_lt_Some in Hpq. apply IH; lia.
Qed.

Lemma async_exec_pipeline_ends st first last w c :
  async_exec_pipeline N st first last w c ≠ OutOfFuel.
Proof.
  unfold async_exec_pipeline.
  pose proof (send_pipeline_ends st last (S (length st)) w first) as Hends.
  destruct (send_pipeline N (S (length st)) w st first last) as [[ok w1]| |].
  - cbn. destruct ok; cbn; [|done]. by destruct (PQpipelineSync N w1) as [[|] w2].
  - done.
  - exfalso. apply Hends; [lia|lia|done].
Qed.

End Reader.

(** ** What one segment does to the queue *)

(** Every segment takes names off the front of the queue only (at most one) and
    puts names on at the back only. *)
Lemma step_queue_front c c' :
  step c c' →
  ∃ k new, k ≤ 1 ∧
    popped c' = popped c ++ take k (result_handlers_ c) ∧
    result_handlers_ c' = drop k (result_handlers_ c) ++ new.
Proof.
  intros Hstep. destruct Hstep as [c|c st first last|c res c' Hd|c id].
  - exists 0, [length (handlers c)]. simpl. rewrite app_nil_r. auto.
  - exists 0, [length (handlers c)]. simpl. rewrite app_nil_r. auto.
  - unfold dispatch in Hd. destruct (decide _) as [|Hs].
    { injection Hd as <-. exists 0, []. simpl. rewrite !app_nil_r. auto. }
    destruct (result_handlers_ c) as [|id rest]; [done|].
    destruct (handlers c !! id) as [o|]; [|done].
    destruct (handle (rh o) (storage o) res) as [[h' st']| |]; try done.
    simpl in Hd. injection Hd as <-. simpl. case_bool_decide.
    + exists 1, []. simpl. rewrite take_0, drop_0, app_nil_r. auto.
    + exists 0, []. simpl. rewrite !app_nil_r. auto.
  - exists 0, []. unfold resume.
    destruct (handlers c !! id); simpl; rewrite !app_nil_r; auto.
Qed.

(** The [handle] calls a segment adds to the history are never made with a
    sync marker. *)
Lemma step_handled c c' :
  step c c' →
  ∃ calls, handled c' = handled c ++ calls ∧
    Forall (λ call, PQresultStatus call.2 ≠ PGRES_PIPELINE_SYNC) calls.
Proof.
  intros Hstep. destruct Hstep as [c|c st first last|c res c' Hd|c id].
  - exists []. simpl. by rewrite app_nil_r.
  - exists []. simpl. by rewrite app_nil_r.
  - unfold dispatch in Hd. destruct (decide _) as [|Hs].
    { injection Hd as <-. exists []. by rewrite app_nil_r. }
    destruct (result_handlers_ c) as [|id rest]; [done|].
    destruct (handlers c !! id) as [o|]; [|done].
    destruct (handle (rh o) (storage o) res) as [[h' st']| |]; try done.
    simpl in Hd. injection Hd as <-. simpl.
    exists [(id, res)]. split; [done|]. by apply Forall_singleton.
  - exists []. unfold resume. destruct (handlers c !! id); simpl; by rewrite app_nil_r.
Qed.

Lemma rtc_step_handled c c' :
  rtc step c c' →
  ∃ calls, handled c' = handled c ++ calls ∧
    Forall (λ call, PQresultStatus call.2 ≠ PGRES_PIPELINE_SYNC) calls.
Proof.
  intros Hsteps. induction Hsteps as [c|c c1 c2 Hstep _ IH].
  - exists []. by rewrite app_nil_r.
  - destruct (step_handled _ _ Hstep) as (l1 & E1 & Hl1).
    destruct IH as (l2 & E2 & Hl2).
    exists (l1 ++ l2). split; [by rewrite E2, E1, app_assoc|by apply Forall_app].
Qed.

(** Each [handle] call made while a list of results is dispatched went to the
    handler that was at the front of the queue when the call was made. *)
Lemma deliver_all_front rs : ∀ c c' i call,
  deliver_all rs c = Ok c' →
  length (handled c) ≤ i → handled c' !! i = Some call →
  ∃ ci, rtc delivers c ci ∧ head (result_handlers_ ci) = Some call.1 ∧
        handled ci = take i (handled c').
Proof.
  induction rs as [|r rs IH]; intros c c' i call; cbn [deliver_all].
  - intros [= <-] Hi Hcall. apply lookup_lt_Some in Hcall. lia.
  - destruct (dispatch r c) as [c1| |] eqn:Hd; try done. cbn [mbind outcome_bind].
    intros Hrest Hi Hcall.
    destruct (rtc_step_handled c1 c'
                (rtc_delivers_step _ _ (deliver_all_delivers rs _ _ Hrest)))
      as (more & Hmore & _).
    assert (Hstep : delivers c c1) by (by exists r).
    unfold dispatch in Hd.
    destruct (decide (PQresultStatus r = PGRES_PIPELINE_SYNC)) as [Hs|Hs].
    { injection Hd as <-. by eapply IH. }
    destruct (result_handlers_ c) as [|id rest] eqn:Hq; [done|].
    destruct (handlers c !! id) as [o|]; [|done].
    destruct (handle (rh o) (storage o) r) as [[h' st']| |]; try done.
    cbn [mbind outcome_bind] in Hd.
    assert (Hc1 : handled c1 = handled c ++ [(id, r)]) by (by injection Hd as <-).
    destruct (decide (i = length (handled c))) as [->|Hne].
    + exists c. split; [done|].
      rewrite Hmore, Hc1, <- app_assoc in Hcall |- *.
      rewrite lookup_app_r, Nat.sub_diag in Hcall by done.
      injection Hcall as <-. split; [by rewrite Hq|].
      by rewrite take_app_length.
    + destruct (IH c1 c' i call Hrest) as (ci & Hci & Hfront & Htake); [|done|].
      { rewrite Hc1, length_app. simpl. lia. }
      exists ci. split; [by eapply rtc_l|done].
Qed.

(** ** The destructor *)

Lemma cancel_all_length q hs : length (cancel_all q hs) = length hs.
Proof.
  revert hs. induction q as [|id q IH]; intros hs; simpl; [done|].
  rewrite IH. destruct (hs !! id); [apply length_insert|done].
Qed.

Lemma cancel_all_status q hs id :
  (λ o, get_status (rh o)) <$> (cancel_all q hs !! id) =
    if decide (id ∈ q) then (λ _, cancelled) <$> (hs !! id)
    else (λ o, get_status (rh o)) <$> (hs !! id).
Proof.
  revert hs. induction q as [|id' q IH]; intros hs.
  { destruct (decide (id ∈ [])) as [Hin|]; [|done]. by apply elem_of_nil in Hin. }
  cbn [cancel_all]. rewrite IH.
  destruct (decide (id ∈ id' :: q)) as [Hin|Hnin];
    destruct (decide (id ∈ q)) as [Hin'|Hnin'].
  - destruct (hs !! id') as [o'|] eqn:Ho'; [|done].
    destruct (decide (id' = id)) as [->|Hne].
    + rewrite list_lookup_insert_eq by (by eapply lookup_lt_Some). by rewrite Ho'.
    + by rewrite list_lookup_insert_ne.
  - apply elem_of_cons in Hin as [->|?]; [|done].
    destruct (hs !! id') as [o'|] eqn:Ho'; [|by rewrite Ho'].
    by rewrite list_lookup_insert_eq by (by eapply lookup_lt_Some).
  - exfalso. apply Hnin. by right.
  - destruct (hs !! id') as [o'|] eqn:Ho'; [|done].
    rewrite list_lookup_insert_ne; [done|]. intros ->. apply Hnin. by left.
Qed.

Lemma destroy_settled c :
  queue_inv c → Forall (λ o, settled (rh o)) (handlers (destroy c)).
Proof.
  intros Hinv. apply Forall_lookup. intros id o Hlook. simpl in Hlook.
  pose proof (cancel_all_status (result_handlers_ c) (handlers c) id) as Hst.
  rewrite Hlook in Hst. simpl in Hst.
  assert (Hlt : id < length (handlers c)).
  { apply lookup_lt_Some in Hlook. by rewrite cancel_all_length in Hlook. }
  destruct (lookup_lt_is_Some_2 _ _ Hlt) as [o0 Ho0]. rewrite Ho0 in Hst.
  destruct (decide (id ∈ result_handlers_ c)) as [Hin|Hnin].
  - right. simpl in Hst. congruence.
  - left. apply (queue_inv_names c id Hinv) in Hlt.
    apply elem_of_app in Hlt as [Hp|?]; [|done].
    destruct Hinv as [_ Hpop _]. specialize (Hpop id Hp).
    unfold status_of in Hpop. rewrite Ho0 in Hpop. simpl in *. congruence.
Qed.

(** ** The claims about the queue *)

(** C1: in every reachable state, a result that is not a pipeline-sync marker
    is passed to [handle] of the handler at the front of the queue (and to no
    other), and that handler is popped right after the call exactly when its
    status is then [completed].  Every segment removes names from the front of
    the queue only and adds them at the back only.  Over a whole run of the
    reader half, every result it got from [PQgetResult] is dispatched, in the
    order of arrival: the results passed to [handle] during the run are the
    results got, sync markers left out, in that order, each call was made on
    the handler at the front of the queue at the moment of the call, and what
    left the queue is a prefix of what was in it.  The names that left the
    queue followed by those still in it are the names in the order the
    handlers were enqueued; once the destructor has emptied the queue, the
    handlers have left it in the order they were enqueued. *)
Theorem reader_forwards_to_front_in_fifo_order c :
  reachable c →
  (∀ res id rest,
     PQresultStatus res ≠ PGRES_PIPELINE_SYNC →
     result_handlers_ c = id :: rest →
     ∃ o, handlers c !! id = Some o ∧
       dispatch res c =
         '(rh', storage') ← handle (rh o) (storage o) res;
         Ok {| handlers :=
                 <[id := {| rh := rh'; storage := storage';
                            delivered := delivered o |}]> (handlers c);
               result_handlers_ :=
                 if bool_decide (get_status rh' = completed) then rest
                 else id :: rest;
               write_cv_ := write_cv_ c;
               popped :=
                 if bool_decide (get_status rh' = completed) then popped c ++ [id]
                 else popped c;
               handled := handled c ++ [(id, res)] |}) ∧
  (∀ c', step c c' →
     ∃ k new, k ≤ 1 ∧
       popped c' = popped c ++ take k (result_handlers_ c) ∧
       result_handlers_ c' = drop k (result_handlers_ c) ++ new) ∧
  (∀ W (N : native W) fuel w ec w' c',
     reader N fuel w c = Ok (ec, w', c') →
     reachable c' ∧
     (∃ k, popped c' = popped c ++ take k (result_handlers_ c) ∧
           result_handlers_ c' = drop k (result_handlers_ c)) ∧
     deliver_all (received N fuel w) c = Ok c' ∧
     (handled c').*2 =
       (handled c).*2 ++
       filter (λ r, PQresultStatus r ≠ PGRES_PIPELINE_SYNC) (received N fuel w) ∧
     (∀ i call, length (handled c) ≤ i → handled c' !! i = Some call →
        ∃ ci, reachable ci ∧ head (result_handlers_ ci) = Some call.1 ∧
              handled ci = take i (handled c'))) ∧
  popped c ++ result_handlers_ c = seq 0 (length (handlers c)) ∧
  popped (destroy c) = seq 0 (length (handlers (destroy c))).
Proof.
  intros Hreach. pose proof (reachable_queue_inv c Hreach) as Hinv.
  split; [|split; [|split; [|split]]].
  - intros res id rest Hs Hq.
    destruct (queue_inv_front c id rest Hinv Hq) as ([o Ho] & _).
    exists o. split; [done|]. by apply dispatch_front.
  - apply step_queue_front.
  - intros W N fuel w ec w' c' Hrun.
    pose proof (reader_received N _ _ _ _ _ _ Hrun) as Hall.
    apply reader_delivers in Hrun. split; [|split; [|split; [|split]]].
    + unfold reachable. etrans; [exact Hreach|]. by apply rtc_delivers_step.
    + by apply rtc_delivers_queue_prefix.
    + exact Hall.
    + by apply deliver_all_handled.
    + intros i call Hi Hcall.
      destruct (deliver_all_front _ _ _ _ _ Hall Hi Hcall) as (ci & Hci & Hfront & Htake).
      exists ci. split; [|done].
      unfold reachable. etrans; [exact Hreach|]. by apply rtc_delivers_step.
  - by destruct Hinv.
  - simpl. rewrite cancel_all_length. by destruct Hinv.
Qed.

(** C2: a result whose status is the pipeline-sync marker is consumed by the
    reader and changes nothing: no [handle] call is made and no handler is
    popped.  Over a whole run of the reader, none of the [handle] calls it makes
    carries a sync marker. *)
Theorem sync_marker_consumed_without_handler :
  (∀ res c, PQresultStatus res = PGRES_PIPELINE_SYNC → dispatch res c = Ok c) ∧
  (∀ W (N : native W) fuel w c ec w' c',
     reader N fuel w c = Ok (ec, w', c') →
     ∃ calls, handled c' = handled c ++ calls ∧
       Forall (λ call, PQresultStatus call.2 ≠ PGRES_PIPELINE_SYNC) calls).
Proof.
  split.
  - apply dispatch_sync.
  - intros W N fuel w c ec w' c' Hrun.
    apply rtc_step_handled, rtc_delivers_step. by eapply reader_delivers.
Qed.

(** C4, as the code has it: destroying the connection leaves every handler
    ever enqueued [completed] or [cancelled] and the queue empty.  The end of
    [async_run] itself cancels nothing: when the reader half returns, with
    whatever code, every handler still queued is still [waiting], and it is the
    destructor that settles them. *)
Theorem destructor_settles_every_handler c :
  reachable c →
  Forall (λ o, settled (rh o)) (handlers (destroy c)) ∧
  result_handlers_ (destroy c) = [] ∧
  (∀ W (N : native W) fuel w ec w' c',
     reader N fuel w c = Ok (ec, w', c') →
     (∀ id, id ∈ result_handlers_ c' → status_of c' id = Some waiting) ∧
     Forall (λ o, settled (rh o)) (handlers (destroy c'))).
Proof.
  intros Hreach. split; [|split].
  - by apply destroy_settled, reachable_queue_inv.
  - done.
  - intros W N fuel w ec w' c' Hrun.
    assert (Hinv : queue_inv c').
    { eapply queue_inv_rtc; [by apply reachable_queue_inv|].
      eapply rtc_delivers_step, reader_delivers, Hrun. }
    split; [by destruct Hinv|by apply destroy_settled].
Qed.

(** C4, as stated, fails: the connection is lost with one query in flight, the
    reader half returns the transport error, and the handler of the query is
    still [waiting]. *)
Lemma run_error_leaves_handler_waiting :
  reachable one_query_pending ∧
  reader scripted 1 lost_connection one_query_pending =
    Ok (transport_error 104,
        {| inbox := []; readiness := []; consumes := true; accepts := true |},
        one_query_pending) ∧
  status_of one_query_pending 0 = Some waiting ∧
  ¬ Forall (λ o, settled (rh o)) (handlers one_query_pending).
Proof.
  split; [|split; [|split]].
  - apply rtc_once, step_query.
  - reflexivity.
  - reflexivity.
  - intros Hall. apply Forall_cons in Hall as [[Hs|Hs] _]; discriminate Hs.
Qed.

(** What the expression [ec1 ? ec1 : ec2] of line 401 computes from the codes
    of the two halves, and when that is the code of the half that completed
    first. *)
Lemma async_run_result_first g :
  (is_error (ec1 g) = true → async_run_result g = ec1 g) ∧
  (is_error (ec1 g) = false → async_run_result g = ec2 g) ∧
  (∀ rest, order g = 0 :: rest →
     Some (async_run_result g) = first_terminated g ↔
     is_error (ec1 g) = true ∨ ec2 g = success) ∧
  (∀ rest, order g = 1 :: rest →
     Some (async_run_result g) = first_terminated g ↔
     is_error (ec1 g) = false ∨ ec1 g = ec2 g).
Proof.
  unfold async_run_result, first_terminated.
  split; [|split; [|split]].
  - by intros ->.
  - by intros ->.
  - intros rest ->. destruct (is_error (ec1 g)) eqn:He.
    + split; [by left|done].
    + assert (ec1 g = success) as -> by (by destruct (ec1 g)).
      split; [intros [= E]; by right|intros [?|E]; [done|by rewrite E]].
  - intros rest ->. destruct (is_error (ec1 g)) eqn:He.
    + split; [intros [= E]; by right|intros [?|E]; [done|by rewrite E]].
    + split; [by left|done].
Qed.

(** C7: the code misses the claim when the reader half terminates first.  The
    socket becomes readable and [PQconsumeInput] fails, so the reader ends with
    [pqconsumeinput_failed] (line 390); the group then cancels the writer, idle
    on [write_cv_], which ends with [operation_aborted] (line 332); and
    [ec1 ? ec1 : ec2] returns [operation_aborted], which is not the code of the
    half that terminated first.  When the writer half fails first the same
    expression does return the code of the half that terminated first. *)
Lemma async_run_hides_reader_error :
  reader scripted 1 failing_consume one_query_pending =
    Ok (pqconsumeinput_failed, failing_consume, one_query_pending) ∧
  writer scripted 1 [writer_cancelled] failing_consume =
    Ok (operation_aborted, failing_consume) ∧
  first_terminated reader_failed_first = Some pqconsumeinput_failed ∧
  async_run_result reader_failed_first = operation_aborted ∧
  Some (async_run_result reader_failed_first) ≠ first_terminated reader_failed_first ∧
  Some (async_run_result writer_failed_first) = first_terminated writer_failed_first.
Proof. repeat split; try reflexivity. discriminate. Qed.

(** C6: a pipeline handler over the range [first, last) of the caller's
    container, with n = last - first >= 1 queries, fed the n results in arrival
    order, writes the k-th result into the k-th slot of the range and touches
    nothing else; it is [waiting] with [first_ = first + k], short of [last_],
    after k < n results, and [completed] with [first_ = last_] after the n-th. *)
Theorem pipeline_handler_fills_slots_in_order st first last rs :
  (0 ≤ first < last)%Z →
  (last ≤ Z.of_nat (length st))%Z →
  Z.of_nat (length rs) = (last - first)%Z →
  ∃ st',
    handle_all (new_pipeline_result_handler first last) st rs =
      Ok ({| status_ := completed; cv_ := 1;
             body := pipeline_result_handler last last 0 |}, st') ∧
    length st' = length st ∧
    (∀ k r, rs !! k = Some r →
       ∃ pq, st !! (Z.to_nat first + k) = Some pq ∧
             st' !! (Z.to_nat first + k) =
               Some {| command := command pq; pq_result := r |}) ∧
    (∀ j, j < Z.to_nat first ∨ Z.to_nat last ≤ j → st' !! j = st !! j) ∧
    (∀ k, k < length rs →
       ∃ stk,
         handle_all (new_pipeline_result_handler first last) st (take k rs) =
           Ok ({| status_ := waiting; cv_ := 0;
                  body := pipeline_result_handler (first + Z.of_nat k) last 0 |},
               stk)).
Proof.
  intros Hrange Hlast Hn.
  destruct (exists_last (l := rs)) as (rs0 & r & ->).
  { intros ->. simpl in Hn. lia. }
  rewrite length_app in Hn. simpl in Hn.
  assert (Hf : first = Z.of_nat (Z.to_nat first)) by lia.
  assert (Hl : last = Z.of_nat (Z.to_nat first + S (length rs0))) by lia.
  destruct (handle_all_pipeline_full rs0 r (new_pipeline_result_handler first last)
              st (Z.to_nat first)) as (st' & Hrun & Hlen & Hin & Hout).
  { simpl. by rewrite <- Hf, <- Hl. }
  { lia. }
  exists st'. rewrite <- Hl in Hrun. split; [exact Hrun|].
  split; [done|]. split; [done|]. split.
  - intros j Hj. apply Hout. lia.
  - intros k Hk. rewrite length_app in Hk. simpl in Hk.
    destruct (handle_all_pipeline_prefix (take k (rs0 ++ [r]))
                (new_pipeline_result_handler first last) st (Z.to_nat first) last)
      as (stk & Hrunk & _).
    { simpl. by rewrite <- Hf. }
    { rewrite length_take, length_app. simpl. lia. }
    { rewrite length_take, length_app. simpl. lia. }
    exists stk. rewrite Hrunk. rewrite length_take, length_app. simpl.
    replace (Z.of_nat (Z.to_nat first + k `min` (length rs0 + 1)))
      with (first + Z.of_nat k)%Z by lia.
    done.
Qed.

(** Once a name is out of the queue, the reader no longer touches its
    handler. *)
Lemma delivers_not_queued c c' id :
  delivers c c' → id ∉ result_handlers_ c →
  handlers c' !! id = handlers c !! id ∧ id ∉ result_handlers_ c'.
Proof.
  intros [res Hd] Hnq. unfold dispatch in Hd. destruct (decide _) as [|Hs].
  { by injection Hd as <-. }
  destruct (result_handlers_ c) as [|id0 rest]; [done|].
  destruct (handlers c !! id0) as [o|]; [|done].
  destruct (handle (rh o) (storage o) res) as [[h' st']| |]; try done.
  simpl in Hd. injection Hd as <-. simpl.
  apply not_elem_of_cons in Hnq as [Hne Hnr]. split.
  - by apply list_lookup_insert_ne.
  - case_bool_decide; [done|]. by apply not_elem_of_cons.
Qed.

Lemma rtc_delivers_not_queued c c' id :
  rtc delivers c c' → id ∉ result_handlers_ c →
  handlers c' !! id = handlers c !! id.
Proof.
  intros Hrun. induction Hrun as [c|c c1 c2 Hd _ IH]; [done|]. intros Hnq.
  destruct (delivers_not_queued _ _ id Hd Hnq) as [<- Hnq1]. by apply IH.
Qed.

(** C5: when a single-query handler is at the front of the queue, the first
    result that is not a sync marker is stored in it by [handle], which sets it
    [completed]; it is popped, so no later result reaches it and the stored
    result stays that first one; when its exec operation is then resumed, the
    operation completes with no error and with that result. *)
Theorem single_query_stores_first_result c id rest o r0 res :
  reachable c →
  result_handlers_ c = id :: rest →
  handlers c !! id = Some o →
  body (rh o) = single_query_result_handler r0 →
  delivered o = None →
  PQresultStatus res ≠ PGRES_PIPELINE_SYNC →
  let stored :=
    {| rh := {| status_ := completed; cv_ := S (cv_ (rh o));
                body := single_query_result_handler res |};
       storage := storage o; delivered := None |} in
  handle (rh o) (storage o) res = Ok (rh stored, storage o) ∧
  ∃ c1,
    dispatch res c = Ok c1 ∧
    handlers c1 !! id = Some stored ∧
    result_handlers_ c1 = rest ∧
    (∀ c2, rtc delivers c1 c2 → handlers c2 !! id = Some stored) ∧
    (∀ c2, handlers c2 !! id = Some stored →
       handlers (resume id c2) !! id =
         Some {| rh := {| status_ := completed; cv_ := S (cv_ (rh o));
                          body := single_query_result_handler nullptr |};
                 storage := storage o;
                 delivered := Some (query_completion success res) |}).
Proof.
  intros Hreach Hq Ho Hb Hd Hs stored.
  pose proof (reachable_queue_inv c Hreach) as Hinv.
  destruct (queue_inv_front c id rest Hinv Hq) as (_ & _ & Hnr).
  pose proof (handle_single (rh o) (storage o) r0 res Hb) as Hh.
  split; [exact Hh|].
  rewrite (dispatch_front res c id rest o Hs Hq Ho), Hh. cbn [mbind outcome_bind].
  rewrite Hd. eexists. split; [reflexivity|]. cbn.
  assert (Hlook : <[id := stored]> (handlers c) !! id = Some stored).
  { apply list_lookup_insert_eq. by eapply lookup_lt_Some. }
  split; [exact Hlook|]. split; [done|]. split.
  - intros c2 Hrun. by rewrite (rtc_delivers_not_queued _ _ id Hrun).
  - intros c2 Hc2. unfold resume. rewrite Hc2. cbn.
    apply list_lookup_insert_eq. by eapply lookup_lt_Some.
Qed.

Lemma handle_all_dummy_full rs h st f l n :
  body h = pipeline_result_handler f l n →
  (0 < n < 2 ^ 64)%Z →
  Z.of_nat (length rs) = n →
  handle_all h st rs =
    Ok (complete (with_body h (pipeline_result_handler f l 0)), st).
Proof.
  intros Hb Hn Hlen.
  destruct (exists_last (l := rs)) as (rs0 & r & ->).
  { intros ->. simpl in Hlen. lia. }
  rewrite length_app in Hlen. simpl in Hlen.
  rewrite handle_all_app, (handle_all_dummy_prefix rs0 h st f l n Hb) by lia.
  cbn [mbind outcome_bind handle_all].
  rewrite (handle_dummy _ st r f l (n - Z.of_nat (length rs0))) by (done || lia).
  cbn [mbind outcome_bind]. rewrite decide_True by lia.
  rewrite with_body_with_body.
  by replace (n - Z.of_nat (length rs0) - 1)%Z with 0%Z by lia.
Qed.

(** C3, as the code has it: when the wait of an exec operation returns while
    its handler is still [waiting], the queue is left as it is and the caller is
    completed with [operation_aborted].  A pipeline handler is dumified: with
    at least one result outstanding it is then in dummy mode, absorbs exactly
    the outstanding results without touching the caller's container, and
    completes on the last of them.  A single-query handler is left untouched,
    with no dummy conversion: it is not in dummy mode, and it absorbs the one
    result in flight by storing it in its own [result_] and completing. *)
Theorem cancelled_wait_keeps_handler_queued c id o :
  handlers c !! id = Some o →
  delivered o = None →
  get_status (rh o) = waiting →
  result_handlers_ (resume id c) = result_handlers_ c ∧
  popped (resume id c) = popped c ∧
  match body (rh o) with
  | pipeline_result_handler f l n =>
      let dummy :=
        {| status_ := waiting; cv_ := cv_ (rh o);
           body := pipeline_result_handler f l (size_t_wrap (l - f)) |} in
      handlers (resume id c) !! id =
        Some {| rh := dummy; storage := storage o;
                delivered := Some (pipeline_completion operation_aborted) |} ∧
      ((0 < l - f < 2 ^ 64)%Z →
       in_dummy_mode dummy = true ∧
       ∀ rs st, Z.of_nat (length rs) = (l - f)%Z →
         handle_all dummy st rs =
           Ok ({| status_ := completed; cv_ := S (cv_ (rh o));
                  body := pipeline_result_handler f l 0 |}, st) ∧
         ∀ k, k < length rs →
           handle_all dummy st (take k rs) =
             Ok ({| status_ := waiting; cv_ := cv_ (rh o);
                    body := pipeline_result_handler f l (l - f - Z.of_nat k) |}, st))
  | single_query_result_handler r0 =>
      handlers (resume id c) !! id =
        Some {| rh := rh o; storage := storage o;
                delivered := Some (query_completion operation_aborted nullptr) |} ∧
      in_dummy_mode (rh o) = false ∧
      ∀ st res,
        handle (rh o) st res =
          Ok ({| status_ := completed; cv_ := S (cv_ (rh o));
                 body := single_query_result_handler res |}, st)
  end.
Proof.
  intros Ho Hd Hw.
  assert (Hlt : id < length (handlers c)) by (by eapply lookup_lt_Some).
  assert (Hres : handlers (resume id c) !! id = Some (resume_operation o)).
  { unfold resume. rewrite Ho. cbn. by apply list_lookup_insert_eq. }
  split; [unfold resume; by rewrite Ho|]. split; [unfold resume; by rewrite Ho|].
  destruct o as [[s cv b] st0 d]. cbn in Hd, Hw. subst d s.
  destruct b as [r0|f l n]; cbn.
  - split; [rewrite Hres; reflexivity|]. split; [reflexivity|]. done.
  - split; [rewrite Hres; reflexivity|]. intros Hn.
    assert (Hwrap : size_t_wrap (l - f) = (l - f)%Z).
    { unfold size_t_wrap. apply Z.mod_small. lia. }
    rewrite Hwrap. split.
    { unfold in_dummy_mode. cbn. apply bool_decide_eq_true. lia. }
    intros rs st Hlen. split.
    + by rewrite (handle_all_dummy_full rs _ st f l (l - f)%Z).
    + intros k Hk.
      rewrite (handle_all_dummy_prefix (take k rs) _ st f l (l - f)%Z);
        [|done|rewrite length_take; lia].
      rewrite length_take. cbn.
      by replace (k `min` length rs) with k by lia.
Qed.

(** C3, as stated, fails for the single query: after the wait of [async_query]
    was cancelled, its handler is the one that was enqueued, unchanged and not
    in dummy mode, and the result that then arrives is stored in it rather than
    counted and discarded. *)
Lemma single_query_is_not_dumified :
  handlers (resume 0 one_query_pending) !! 0 =
    Some {| rh := new_single_query_result_handler; storage := [];
            delivered := Some (query_completion operation_aborted nullptr) |} ∧
  in_dummy_mode new_single_query_result_handler = false ∧
  handle new_single_query_result_handler []
    (Some {| res_status := PGRES_TUPLES_OK; res_tag := 7 |}) =
    Ok ({| status_ := completed; cv_ := 1;
           body := single_query_result_handler
                     (Some {| res_status := PGRES_TUPLES_OK; res_tag := 7 |}) |}, []).
Proof. split; [reflexivity|split; reflexivity]. Qed.

(** C10: [handle] of a pipeline handler outside dummy mode writes through
    [first_] without a test.  With [first_] inside a non-empty range that lies
    in the container the write is in range.  [async_exec_pipeline] on an empty
    range [first, first) sends no query and, once the sync is queued, enqueues a
    handler that is [waiting] with [first_ = last_]; whatever results this
    handler is given, it stays [waiting] with [first_] past [last_]; the first
    result it is given is written at [first], the past-the-end position of the
    range, which is a fault when that is also the end of the container; and this
    is what the reader does with a result while the handler is at the front of
    the queue. *)
Theorem pipeline_handle_writes_unguarded :
  (∀ h st res f l,
     body h = pipeline_result_handler f l 0 →
     (0 ≤ f < l)%Z → (l ≤ Z.of_nat (length st))%Z →
     ∃ pq, st !! Z.to_nat f = Some pq ∧
       handle h st res =
         Ok (let h' := with_body h (pipeline_result_handler (f + 1) l 0) in
             if decide (f + 1 = l)%Z then complete h' else h',
             <[Z.to_nat f := {| command := command pq; pq_result := res |}]> st)) ∧
  (∀ W (N : native W) st first w c,
     async_exec_pipeline N st first first w c =
       let '(ok, w') := PQpipelineSync N w in
       if ok then
         Ok (w',
             enqueue {| rh := new_pipeline_result_handler first first;
                        storage := st; delivered := None |} c,
             None)
       else Ok (w', c, Some (pipeline_completion pqpipelinesync_failed))) ∧
  (∀ first st rs h' st',
     handle_all (new_pipeline_result_handler first first) st rs = Ok (h', st') →
     h' = {| status_ := waiting; cv_ := 0;
             body := pipeline_result_handler (first + Z.of_nat (length rs)) first 0 |}) ∧
  (∀ first st res,
     handle (new_pipeline_result_handler first first) st res =
       match write_result st first res with
       | Some st' =>
           Ok ({| status_ := waiting; cv_ := 0;
                  body := pipeline_result_handler (first + 1) first 0 |}, st')
       | None => Fault (invalid_access first)
       end) ∧
  (∀ first st res,
     (Z.of_nat (length st) ≤ first)%Z →
     handle (new_pipeline_result_handler first first) st res =
       Fault (invalid_access first)) ∧
  (∀ c id rest o first res,
     result_handlers_ c = id :: rest →
     handlers c !! id = Some o →
     rh o = new_pipeline_result_handler first first →
     (Z.of_nat (length (storage o)) ≤ first)%Z →
     PQresultStatus res ≠ PGRES_PIPELINE_SYNC →
     dispatch res c = Fault (invalid_access first)).
Proof.
  assert (Hone : ∀ first st res,
     handle (new_pipeline_result_handler first first) st res =
       match write_result st first res with
       | Some st' =>
           Ok ({| status_ := waiting; cv_ := 0;
                  body := pipeline_result_handler (first + 1) first 0 |}, st')
       | None => Fault (invalid_access first)
       end).
  { intros first st res. unfold handle. cbn.
    destruct (decide (0 ≠ 0)%Z) as [|_]; [done|].
    destruct (write_result st first res); [|done].
    by rewrite decide_False by lia. }
  assert (Hend : ∀ first st res,
     (Z.of_nat (length st) ≤ first)%Z →
     handle (new_pipeline_result_handler first first) st res =
       Fault (invalid_access first)).
  { intros first st res Hge. rewrite Hone, write_result_None; [done|lia]. }
  split; [|split; [|split; [|split; [|split]]]].
  - intros h st res f l Hb Hf Hl.
    destruct (handle_pipeline_write h st res (Z.to_nat f) l) as (pq & Hpq & Hh).
    { rewrite Hb. f_equal. lia. }
    { lia. }
    exists pq. split; [done|]. rewrite Hh.
    by replace (Z.of_nat (S (Z.to_nat f))) with (f + 1)%Z by lia.
  - intros W N st first w c. unfold async_exec_pipeline.
    cbn [send_pipeline]. rewrite decide_True by done. cbn.
    by destruct (PQpipelineSync N w) as [[|] w'].
  - intros first st rs. revert st.
    assert (Hgen : ∀ k st h' st',
      handle_all {| status_ := waiting; cv_ := 0;
                    body := pipeline_result_handler (first + Z.of_nat k) first 0 |}
                 st rs = Ok (h', st') →
      h' = {| status_ := waiting; cv_ := 0;
              body := pipeline_result_handler
                        (first + Z.of_nat (k + length rs)) first 0 |}).
    { induction rs as [|r rs IH]; intros k st h' st'; cbn [handle_all].
      - intros [= <- <-]. by rewrite Nat.add_0_r.
      - unfold handle at 1. cbn.
        destruct (decide (0 ≠ 0)%Z) as [|_]; [done|].
        destruct (write_result st (first + Z.of_nat k) r) as [st1|]; [|done].
        rewrite decide_False by lia. cbn.
        replace (first + Z.of_nat k + 1)%Z with (first + Z.of_nat (S k))%Z by lia.
        intros Hrest. apply IH in Hrest. rewrite Hrest.
        by replace (S k + length rs) with (k + S (length rs)) by lia. }
    intros st h' st' Hrun. apply (Hgen 0 st h' st').
    unfold new_pipeline_result_handler in Hrun. by rewrite Z.add_0_r.
  - exact Hone.
  - exact Hend.
  - intros c id rest o first res Hq Ho Hrh Hlen Hs.
    rewrite (dispatch_front res c id rest o Hs Hq Ho), Hrh.
    by rewrite Hend.
Qed.

End HandlerQueue.

(** * Properties of the type scan and of the parameter block *)

Section TypeScan.
Import Psql.

(** Induction on a type with the hypothesis for every field of a composite. *)
Lemma ty_nested_ind (P : ty → Prop) :
  (∀ size, P (t_integral size)) →
  P t_time_point →
  (∀ k, P (t_text k)) →
  (∀ id nm fields, Forall P fields → P (t_user_defined id nm fields)) →
  (∀ fields, Forall P fields → P (t_tuple fields)) →
  (∀ V, P V → P (t_array V)) →
  ∀ T, P T.
Proof.
  intros Hint Htime Htext Hudt Htuple Harray. fix IH 1.
  intros [size| |k|id nm fields|fields|V].
  - apply Hint.
  - apply Htime.
  - apply Htext.
  - apply Hudt. induction fields as [|F fields IHf]; constructor; [apply IH|exact IHf].
  - apply Htuple. induction fields as [|F fields IHf]; constructor; [apply IH|exact IHf].
  - apply Harray, IH.
Qed.

Variable omp : gmap type_index Oid.

(** The scan of the fields of a composite, one after the other. *)
Lemma scan_fields_app fields :
  Forall (λ F, ∀ acc, extract_new_udts F omp acc = acc ++ extract_new_udts F omp [])
    fields →
  ∀ acc,
    foldl (λ acc U, extract_new_udts U omp acc) acc fields =
    acc ++ foldl (λ acc U, extract_new_udts U omp acc) [] fields.
Proof.
  induction 1 as [|F fields HF _ IH]; intros acc; simpl.
  - by rewrite app_nil_r.
  - rewrite HF, IH, (IH (extract_new_udts F omp [])). by rewrite app_assoc.
Qed.

(** What the scan appends does not depend on what the vector already holds. *)
Lemma extract_new_udts_app T :
  ∀ acc, extract_new_udts T omp acc = acc ++ extract_new_udts T omp [].
Proof.
  induction T as [size| |k|id nm fields IH|fields IH|V IH] using ty_nested_ind;
    intros acc; simpl; try (by rewrite app_nil_r).
  - destruct (decide (omp !! id = None)).
    + rewrite (scan_fields_app fields IH (acc ++ _)).
      rewrite (scan_fields_app fields IH [_]). by rewrite <- app_assoc.
    + apply (scan_fields_app fields IH).
  - apply (scan_fields_app fields IH).
  - apply IH.
Qed.

Lemma scan_fields_cons F fields :
  foldl (λ acc U, extract_new_udts U omp acc) [] (F :: fields) =
  extract_new_udts F omp [] ++
  foldl (λ acc U, extract_new_udts U omp acc) [] fields.
Proof.
  simpl. apply scan_fields_app, Forall_forall. intros T _. apply extract_new_udts_app.
Qed.

Lemma elem_of_scan_fields p fields :
  p ∈ foldl (λ acc U, extract_new_udts U omp acc) [] fields ↔
  ∃ F, F ∈ fields ∧ p ∈ extract_new_udts F omp [].
Proof.
  induction fields as [|F fields IH].
  - simpl. split; [by intros ?%elem_of_nil|by intros (F & ?%elem_of_nil & _)].
  - rewrite scan_fields_cons, elem_of_app, IH. split.
    + intros [Hp|(F' & HF' & Hp)]; [exists F|exists F']; split; try done;
        [by left|by right].
    + intros (F' & [->|HF']%elem_of_cons & Hp); [by left|right; by exists F'].
Qed.

(** A pair is found by the scan exactly when it names a user-defined type that
    occurs in the type and is not registered. *)
Lemma elem_of_extract_new_udts T p :
  p ∈ extract_new_udts T omp [] ↔
  ∃ id nm fields,
    occurs (t_user_defined id nm fields) T ∧ omp !! id = None ∧
    p = {| name := nm; type := id |}.
Proof.
  revert p.
  induction T as [size| |k|id nm fields IH|fields IH|V IH] using ty_nested_ind;
    intros p; simpl.
  - split; [by intros ?%elem_of_nil|]. intros (id & nm & fs & Hocc & _).
    inversion Hocc.
  - split; [by intros ?%elem_of_nil|]. intros (id & nm & fs & Hocc & _).
    inversion Hocc.
  - split; [by intros ?%elem_of_nil|]. intros (id & nm & fs & Hocc & _).
    inversion Hocc.
  - rewrite Forall_forall in IH.
    assert (Hfields : p ∈ foldl (λ acc U, extract_new_udts U omp acc) [] fields ↔
      ∃ id' nm' fs', (∃ F, F ∈ fields ∧ occurs (t_user_defined id' nm' fs') F) ∧
        omp !! id' = None ∧ p = {| name := nm'; type := id' |}).
    { rewrite elem_of_scan_fields. split.
      - intros (F & HF & Hp). apply (IH F HF) in Hp as (id' & nm' & fs' & ? & ? & ?).
        exists id', nm', fs'. split; [by exists F|done].
      - intros (id' & nm' & fs' & (F & HF & Hocc) & ? & ?). exists F. split; [done|].
        apply (IH F HF). by exists id', nm', fs'. }
    destruct (decide (omp !! id = None)) as [Hfresh|Hreg].
    + rewrite (scan_fields_app fields); [|apply Forall_forall; intros; apply extract_new_udts_app].
      rewrite elem_of_app, Hfields. simpl. split.
      * intros [->%list_elem_of_singleton|(id' & nm' & fs' & (F & HF & Hocc) & ? & ?)].
        -- exists id, nm, fields. split; [constructor|done].
        -- exists id', nm', fs'. split; [by eapply occurs_user_defined|done].
      * intros (id' & nm' & fs' & Hocc & Hnone & ->). inversion Hocc; subst.
        -- left. by apply list_elem_of_singleton.
        -- right. exists id', nm', fs'. split; [by eexists|done].
    + rewrite Hfields. split.
      * intros (id' & nm' & fs' & (F & HF & Hocc) & ? & ?).
        exists id', nm', fs'. split; [by eapply occurs_user_defined|done].
      * intros (id' & nm' & fs' & Hocc & Hnone & ->). inversion Hocc; subst.
        -- done.
        -- exists id', nm', fs'. split; [by eexists|done].
  - rewrite Forall_forall in IH. rewrite elem_of_scan_fields. split.
    + intros (F & HF & Hp). apply (IH F HF) in Hp as (id' & nm' & fs' & ? & ? & ?).
      exists id', nm', fs'. split; [by eapply occurs_tuple|done].
    + intros (id' & nm' & fs' & Hocc & ? & ?). inversion Hocc; subst.
      eexists. split; [done|]. apply IH; [done|]. by exists id', nm', fs'.
  - rewrite IH. split.
    + intros (id' & nm' & fs' & ? & ? & ?). exists id', nm', fs'.
      split; [by constructor|done].
    + intros (id' & nm' & fs' & Hocc & ? & ?). inversion Hocc; subst.
      by exists id', nm', fs'.
Qed.

(** C9, as the code has it: [extract_new_udts<T>] walks [T] through the
    fields of composites and the element types of arrays, and the pairs it
    appends are exactly those of the user-defined types that occur in [T] and
    are not registered in the map, so no registered and no built-in type is
    among them.  Nothing is deduplicated: what is appended does not depend on
    what the vector holds, and a type with two fields of the same type gets
    that type's pairs twice. *)
Theorem extract_new_udts_finds_unregistered T :
  (∀ p, p ∈ extract_new_udts T omp [] ↔
     ∃ id nm fields,
       occurs (t_user_defined id nm fields) T ∧ omp !! id = None ∧
       p = {| name := nm; type := id |}) ∧
  (∀ acc, extract_new_udts T omp acc = acc ++ extract_new_udts T omp []) ∧
  extract_new_udts (t_array T) omp [] = extract_new_udts T omp [] ∧
  extract_new_udts (t_tuple [T; T]) omp [] =
    extract_new_udts T omp [] ++ extract_new_udts T omp [].
Proof.
  split; [|split; [|split]].
  - intros p. apply elem_of_extract_new_udts.
  - apply extract_new_udts_app.
  - done.
  - simpl. apply extract_new_udts_app.
Qed.

End TypeScan.

(** C9, as stated, fails: for a tuple of two [point]s and an empty map, [point]
    is listed twice. *)
Lemma extract_new_udts_lists_point_twice :
  Psql.extract_new_udts (Psql.t_tuple [Psql.point; Psql.point]) ∅ [] =
    [ {| Psql.name := "point"; Psql.type := 1 |};
      {| Psql.name := "point"; Psql.type := 1 |} ] ∧
  ¬ NoDup (Psql.extract_new_udts (Psql.t_tuple [Psql.point; Psql.point]) ∅ []).
Proof.
  split; [reflexivity|].
  intros Hnd. apply NoDup_cons in Hnd as [Hnotin _]. apply Hnotin. by left.
Qed.

(** ** The parameter block *)

Section Params.
Import Psql.
Variable oid_of : gmap type_index Oid → ty → Oid.
Variable size_of : value → Z.
Variable omp : gmap type_index Oid.

Lemma add_all p args :
  let p' := foldl (λ p v, add oid_of size_of omp v p) p args in
  buffer_ p' = buffer_ p ++ mjoin (map (encode oid_of size_of omp) args) ∧
  types_ p' = types_ p ++ map (λ v, oid_of omp (type_of v)) args ∧
  lengths_ p' = lengths_ p ++ map (λ v, to_int (size_of v)) args ∧
  values_ p' = values_ p ∧
  formats_ p' = formats_ p.
Proof.
  revert p. induction args as [|v args IH]; intros p; simpl.
  - by rewrite !app_nil_r.
  - destruct (IH (add oid_of size_of omp v p)) as (Hb & Ht & Hl & Hv & Hf).
    simpl in *. rewrite Hb, Ht, Hl, Hv, Hf. by rewrite <- !app_assoc.
Qed.

Lemma convert_offsets_from_fields ls : ∀ offset p,
  let p' := convert_offsets_from offset ls p in
  buffer_ p' = buffer_ p ∧ types_ p' = types_ p ∧ lengths_ p' = lengths_ p ∧
  formats_ p' = formats_ p ++ replicate (length ls) 1%Z ∧
  length (values_ p') = length (values_ p) + length ls ∧
  (∀ i len, ls !! i = Some len → len = 0%Z →
     values_ p' !! (length (values_ p) + i) = Some None) ∧
  (∀ i len, ls !! i = Some len → len ≠ 0%Z →
     ∃ at_, values_ p' !! (length (values_ p) + i) = Some (Some at_)) ∧
  (∀ j, j < length (values_ p) → values_ p' !! j = values_ p !! j).
Proof.
  induction ls as [|len ls IH]; intros offset p; simpl.
  - rewrite app_nil_r, Nat.add_0_r.
    repeat split; try done; intros i len Hi; by rewrite lookup_nil in Hi.
  - match goal with |- context [convert_offsets_from ?o ls ?q] =>
      destruct (IH o q) as (Hb & Ht & Hl & Hf & Hlen & Hzero & Hnz & Hold)
    end.
    simpl in *. rewrite length_app in *. simpl in *.
    rewrite Hb, Ht, Hl, Hf, Hlen. rewrite <- app_assoc. simpl.
    split; [done|]. split; [done|]. split; [done|]. split; [done|].
    split; [lia|]. split; [|split].
    + intros [|i] len' Hi Hz; simpl in Hi.
      * injection Hi as ->. rewrite Nat.add_0_r, Hold by lia.
        rewrite lookup_app_r by lia. rewrite Nat.sub_diag. simpl.
        by rewrite decide_False by (intros ?; done).
      * replace (length (values_ p) + S i) with (length (values_ p) + 1 + i) by lia.
        by eapply Hzero.
    + intros [|i] len' Hi Hz; simpl in Hi.
      * injection Hi as ->. rewrite Nat.add_0_r, Hold by lia.
        rewrite lookup_app_r by lia. rewrite Nat.sub_diag. simpl.
        rewrite decide_True by done. by eexists.
      * replace (length (values_ p) + S i) with (length (values_ p) + 1 + i) by lia.
        by eapply Hnz.
    + intros j Hj. rewrite Hold by lia. by rewrite lookup_app_l.
Qed.

(** C8, as the code has it: every parameter of a pack gets format code 1; a
    zero-length text value (one [size_of] gives 0 for) adds no byte to the
    buffer and gets length 0 in the descriptor, and its entry in the array of
    value pointers is the null pointer, where a value with a non-zero length
    gets a pointer into the buffer. *)
Theorem params_binary_and_empty_text args :
  let p := make_params oid_of size_of omp args in
  formats_ p = replicate (length args) 1%Z ∧
  types_ p = map (λ v, oid_of omp (type_of v)) args ∧
  lengths_ p = map (λ v, to_int (size_of v)) args ∧
  length (values_ p) = length args ∧
  buffer_ p = mjoin (map (encode oid_of size_of omp) args) ∧
  (∀ i k, args !! i = Some (v_text k []) → size_of (v_text k []) = 0%Z →
     encode oid_of size_of omp (v_text k []) = [] ∧
     lengths_ p !! i = Some 0%Z ∧
     values_ p !! i = Some None ∧
     formats_ p !! i = Some 1%Z) ∧
  (∀ i v, args !! i = Some v → to_int (size_of v) ≠ 0%Z →
     ∃ at_, values_ p !! i = Some (Some at_)).
Proof.
  unfold make_params, convert_offsets.
  destruct (add_all empty_params args) as (Hb & Ht & Hl & Hv & Hf). simpl in *.
  match goal with |- context [convert_offsets_from ?o ?ls ?q] =>
    destruct (convert_offsets_from_fields ls o q)
      as (Hb' & Ht' & Hl' & Hf' & Hlen' & Hzero & Hnz & _)
  end.
  simpl in *. rewrite Hl in *. rewrite Hv in *. rewrite Hf in *. simpl in *.
  rewrite length_map in *.
  rewrite Hb', Ht', Hl', Hf', Hb, Ht.
  split; [done|]. split; [done|]. split; [done|]. split; [done|]. split; [done|].
  split.
  - intros i k Hi Hsize.
    assert (Henc : encode oid_of size_of omp (v_text k []) = []) by (by destruct k).
    assert (Hsz : to_int (size_of (v_text k [])) = 0%Z) by (by rewrite Hsize).
    assert (Hli : map (λ v, to_int (size_of v)) args !! i = Some 0%Z).
    { by rewrite list_lookup_fmap, Hi; simpl; rewrite Hsz. }
    split; [done|]. split; [done|]. split.
    + by apply (Hzero i 0%Z).
    + apply lookup_replicate_2. by eapply lookup_lt_Some.
  - intros i v Hi Hnz'. apply (Hnz i (to_int (size_of v))); [|done].
    by rewrite list_lookup_fmap, Hi.
Qed.

End Params.

(** ** The modelled [size_of] against the serializer *)

Section SizeOf.
Import Psql.
Variable oid_of : gmap type_index Oid → ty → Oid.
Variable omp : gmap type_index Oid.

(** Induction on a value with the hypothesis for every member and element. *)
Lemma value_nested_ind (P : value → Prop) :
  (∀ size z, P (v_integral size z)) →
  (∀ us, P (v_time_point us)) →
  (∀ k s, P (v_text k s)) →
  (∀ id nm fields, Forall P fields → P (v_user_defined id nm fields)) →
  (∀ fields, Forall P fields → P (v_tuple fields)) →
  (∀ T elems, Forall P elems → P (v_array T elems)) →
  ∀ v, P v.
Proof.
  intros Hint Htime Htext Hudt Htuple Harray. fix IH 1.
  intros [size z|us|k s|id nm fields|fields|T elems].
  - apply Hint.
  - apply Htime.
  - apply Htext.
  - apply Hudt. induction fields as [|f fields IHf]; constructor; [apply IH|exact IHf].
  - apply Htuple. induction fields as [|f fields IHf]; constructor; [apply IH|exact IHf].
  - apply Harray. induction elems as [|e elems IHe]; constructor; [apply IH|exact IHe].
Qed.

Lemma length_endian_store_big size z : length (endian_store_big size z) = size.
Proof. unfold endian_store_big. by rewrite length_map, length_rev, length_seq. Qed.

Lemma mjoin_cons (x : list Byte.byte) l : mjoin (x :: l) = x ++ mjoin l.
Proof. reflexivity. Qed.

Lemma size_of_members fields :
  Forall (λ f, size_of f = Z.of_nat (length (encode oid_of size_of omp f))) fields →
  foldr (λ f n, 8 + size_of f + n)%Z 0%Z fields =
  Z.of_nat (length (mjoin (map (λ f,
    endian_store_big 4 (oid_of omp (type_of f)) ++
    endian_store_big 4 (size_of f) ++ encode oid_of size_of omp f) fields))).
Proof.
  induction 1 as [|f fields Hf _ IH]; [done|].
  cbn [foldr map]. rewrite mjoin_cons.
  rewrite !length_app, !length_endian_store_big, IH, Hf. lia.
Qed.

Lemma size_of_elements elems :
  Forall (λ e, size_of e = Z.of_nat (length (encode oid_of size_of omp e))) elems →
  foldr (λ e n, 4 + size_of e + n)%Z 0%Z elems =
  Z.of_nat (length (mjoin (map (λ e,
    endian_store_big 4 (size_of e) ++ encode oid_of size_of omp e) elems))).
Proof.
  induction 1 as [|e elems He _ IH]; [done|].
  cbn [foldr map]. rewrite mjoin_cons.
  rewrite !length_app, !length_endian_store_big, IH, He. lia.
Qed.

(** The contract the spec gives [size_of]: the number of bytes the serializer
    writes for the value. *)
Lemma size_of_matches_encode v :
  size_of v = Z.of_nat (length (encode oid_of size_of omp v)).
Proof.
  induction v as [size z|us|k s|id nm fields IH|fields IH|T elems IH]
    using value_nested_ind; cbn [size_of encode].
  - by rewrite length_endian_store_big.
  - by rewrite length_endian_store_big.
  - by destruct k.
  - rewrite length_app, length_endian_store_big, (size_of_members fields IH). lia.
  - rewrite length_app, length_endian_store_big, (size_of_members fields IH). lia.
  - rewrite !length_app, !length_endian_store_big, (size_of_elements elems IH). lia.
Qed.

End SizeOf.

(** C8, as stated, fails: an empty [std::string] passed as the only parameter
    is recorded with length 0 and with the null pointer as its value, which is
    how the native submission call is told that a parameter is NULL, not a
    present empty value. *)
Lemma empty_text_gets_null_pointer :
  Psql.values_
    (Psql.make_params Psql.example_oid_of Psql.size_of ∅ [Psql.v_text Psql.std_string []]) =
    [None] ∧
  Psql.lengths_
    (Psql.make_params Psql.example_oid_of Psql.size_of ∅ [Psql.v_text Psql.std_string []]) =
    [0%Z] ∧
  Psql.values_
    (Psql.make_params Psql.example_oid_of Psql.size_of ∅
       [Psql.v_text Psql.std_string [Byte.x61]]) = [Some 0%Z].
Proof. split; [reflexivity|split; reflexivity]. Qed.

(** * The statements at concrete inputs *)

Section Scenarios.
Import Asiofiedpq.

Lemma reachable_one_query_pending : reachable one_query_pending.
Proof. apply rtc_once, step_query. Qed.

Lemma reachable_pipeline_pending : reachable pipeline_pending.
Proof. apply rtc_once, step_pipeline. Qed.

(** A pipeline of three and then a single query: the server's answers, with the
    sync markers in between, go to the slots in order and then to the query;
    both handlers leave the queue in the order they entered it. *)
Example pipeline_then_query_run :
  ∃ w' c',
    reader scripted 8
      (answering [command_ok 1; command_ok 2; tuples_ok 3; pipeline_sync;
                  tuples_ok 4; pipeline_sync])
      (async_query scripted {| q_command := "SELECT 1;" |} (answering [])
         pipeline_pending).1.2 =
      Ok (transport_error 104, w', c') ∧
    result_handlers_ c' = [] ∧ popped c' = [0; 1] ∧
    handled c' = [(0, command_ok 1); (0, command_ok 2); (0, tuples_ok 3);
                  (1, tuples_ok 4)] ∧
    (λ o, pq_result <$> storage o) <$> (handlers c' !! 0) =
      Some [command_ok 1; command_ok 2; tuples_ok 3] ∧
    (λ o, body (rh o)) <$> (handlers c' !! 1) =
      Some (single_query_result_handler (tuples_ok 4)) ∧
    status_of c' 0 = Some completed ∧ status_of c' 1 = Some completed.
Proof. do 2 eexists. split; [reflexivity|]. repeat split. Qed.

(** The wait of a pipeline of three is cancelled after the first result: the
    handler stays at the front, swallows the two results still to come without
    touching the container, and the query submitted afterwards gets its own
    result. *)
Example cancelled_pipeline_run :
  ∃ c1 w' c',
    dispatch (command_ok 1) pipeline_pending = Ok c1 ∧
    reader scripted 8
      (answering [command_ok 2; tuples_ok 3; pipeline_sync; tuples_ok 4;
                  pipeline_sync])
      (async_query scripted {| q_command := "SELECT 1;" |} (answering [])
         (resume 0 c1)).1.2 =
      Ok (transport_error 104, w', c') ∧
    popped c' = [0; 1] ∧
    (λ o, delivered o) <$> (handlers c' !! 0) =
      Some (Some (pipeline_completion operation_aborted)) ∧
    (λ o, pq_result <$> storage o) <$> (handlers c' !! 0) =
      Some [command_ok 1; nullptr; nullptr] ∧
    (λ o, body (rh o)) <$> (handlers c' !! 1) =
      Some (single_query_result_handler (tuples_ok 4)).
Proof. do 3 eexists. split; [reflexivity|]. split; [reflexivity|]. repeat split. Qed.

(** A pipeline over an empty range of an empty container, then a query: the
    pipeline's sync marker is skipped, so its handler is still at the front
    when the result of the query arrives, and the write through its [first_]
    is out of the container. *)
Example empty_pipeline_run :
  ∃ w1 c1,
    async_exec_pipeline scripted [] 0 0 (answering []) new_connection =
      Ok (w1, c1, None) ∧
    status_of c1 0 = Some waiting ∧
    reader scripted 8 (answering [pipeline_sync; tuples_ok 1; pipeline_sync])
      (async_query scripted {| q_command := "SELECT 1;" |} w1 c1).1.2 =
      Fault (invalid_access 0).
Proof. do 2 eexists. split; [reflexivity|]. split; reflexivity. Qed.

(** The claims at these inputs. *)

Lemma reader_forwards_to_front_in_fifo_order_witness :
  reachable pipeline_pending ∧
  reader scripted 5
    (answering [command_ok 1; command_ok 2; tuples_ok 3; pipeline_sync])
    pipeline_pending =
    Ok (transport_error 104, {| inbox := []; readiness := []; consumes := true; accepts := true |}, pipeline_answered) ∧
  (handled pipeline_answered).*2 =
    (handled pipeline_pending).*2 ++
    filter (λ r, PQresultStatus r ≠ PGRES_PIPELINE_SYNC)
      (received scripted 5
         (answering [command_ok 1; command_ok 2; tuples_ok 3; pipeline_sync])).
Proof.
  split; [exact reachable_pipeline_pending|]. split; [reflexivity|].
  exact (proj1 (proj2 (proj2 (proj2 (proj1 (proj2 (proj2
    (reader_forwards_to_front_in_fifo_order pipeline_pending
       reachable_pipeline_pending)))
    _ scripted 5
    (answering [command_ok 1; command_ok 2; tuples_ok 3; pipeline_sync])
    (transport_error 104) _ pipeline_answered eq_refl))))).
Defined.

Lemma sync_marker_consumed_without_handler_witness :
  PQresultStatus pipeline_sync = PGRES_PIPELINE_SYNC ∧
  dispatch pipeline_sync one_query_pending = Ok one_query_pending.
Proof.
  split; [reflexivity|].
  apply (proj1 sync_marker_consumed_without_handler). reflexivity.
Defined.

Lemma cancelled_wait_keeps_handler_queued_witness :
  handlers pipeline_pending !! 0 =
    Some {| rh := new_pipeline_result_handler 0 3; storage := phonebook;
            delivered := None |} ∧
  handlers (resume 0 pipeline_pending) !! 0 =
    Some {| rh := {| status_ := waiting; cv_ := 0;
                     body := pipeline_result_handler 0 3 3 |};
            storage := phonebook;
            delivered := Some (pipeline_completion operation_aborted) |}.
Proof.
  split; [reflexivity|].
  exact (proj1 (proj2 (proj2
    (cancelled_wait_keeps_handler_queued pipeline_pending 0
       {| rh := new_pipeline_result_handler 0 3; storage := phonebook;
          delivered := None |} eq_refl eq_refl eq_refl)))).
Defined.

Lemma destructor_settles_every_handler_witness :
  reachable one_query_pending ∧
  Forall (λ o, settled (rh o)) (handlers (destroy one_query_pending)).
Proof.
  split; [exact reachable_one_query_pending|].
  exact (proj1 (destructor_settles_every_handler one_query_pending
                  reachable_one_query_pending)).
Defined.

Lemma single_query_stores_first_result_witness :
  reachable one_query_pending ∧
  handle new_single_query_result_handler [] (tuples_ok 7) =
    Ok ({| status_ := completed; cv_ := 1;
           body := single_query_result_handler (tuples_ok 7) |}, []).
Proof.
  split; [exact reachable_one_query_pending|].
  refine (proj1 (single_query_stores_first_result one_query_pending 0 []
    {| rh := new_single_query_result_handler; storage := []; delivered := None |}
    nullptr (tuples_ok 7) reachable_one_query_pending eq_refl eq_refl eq_refl
    eq_refl _)).
  discriminate.
Defined.

Lemma pipeline_handler_fills_slots_in_order_witness :
  ∃ st',
    handle_all (new_pipeline_result_handler 0 3) phonebook
      [command_ok 1; command_ok 2; tuples_ok 3] =
      Ok ({| status_ := completed; cv_ := 1;
             body := pipeline_result_handler 3 3 0 |}, st').
Proof.
  destruct (pipeline_handler_fills_slots_in_order phonebook 0 3
              [command_ok 1; command_ok 2; tuples_ok 3])
    as (st' & Hrun & _); [lia|simpl; lia|reflexivity|].
  exists st'. exact Hrun.
Defined.

Lemma pipeline_handle_writes_unguarded_witness :
  ∃ pq, phonebook !! 0 = Some pq ∧
    handle (new_pipeline_result_handler 0 3) phonebook (command_ok 1) =
      Ok ({| status_ := waiting; cv_ := 0;
             body := pipeline_result_handler 1 3 0 |},
          <[0 := {| command := command pq; pq_result := command_ok 1 |}]> phonebook).
Proof.
  destruct (proj1 pipeline_handle_writes_unguarded
              (new_pipeline_result_handler 0 3) phonebook (command_ok 1) 0%Z 3%Z)
    as (pq & Hpq & Hrun); [reflexivity|lia|simpl; lia|].
  exists pq. split; [exact Hpq|exact Hrun].
Defined.

End Scenarios.

Section PsqlScenarios.
Import Psql.

(** The boundary cases of the wire format: the timestamp at the 2000-01-01
    epoch is eight zero bytes, an integer is big-endian, an empty array is its
    five header words. *)
Example encode_boundaries :
  encode example_oid_of size_of ∅ (v_time_point 946684800000000) =
    [Byte.x00; Byte.x00; Byte.x00; Byte.x00; Byte.x00; Byte.x00; Byte.x00; Byte.x00] ∧
  encode example_oid_of size_of ∅ (v_integral 4 1) = [Byte.x00; Byte.x00; Byte.x00; Byte.x01] ∧
  encode example_oid_of size_of ∅ (v_integral 2 (-2)) = [Byte.xff; Byte.xfe] ∧
  encode example_oid_of size_of ∅ (v_text c_string [Byte.x61; Byte.x62; Byte.x00; Byte.x63]) =
    [Byte.x61; Byte.x62] ∧
  length (encode example_oid_of size_of ∅ (v_array (t_integral 4) [])) = 20 ∧
  make_params example_oid_of size_of ∅ [] = empty_params.
Proof. repeat split. Qed.

(** Two parameters, the first one empty: the second starts at offset 0. *)
Example params_of_two_texts :
  make_params example_oid_of size_of ∅
    [v_text std_string []; v_text string_view [Byte.x61; Byte.x62]] =
    {| buffer_ := [Byte.x61; Byte.x62]; types_ := [25%Z; 25%Z];
       values_ := [None; Some 0%Z]; lengths_ := [0%Z; 2%Z];
       formats_ := [1%Z; 1%Z] |}.
Proof. reflexivity. Qed.

Lemma params_binary_and_empty_text_witness :
  [v_text std_string []] !! 0 = Some (v_text std_string []) ∧
  size_of (v_text std_string []) = 0%Z ∧
  values_ (make_params example_oid_of size_of ∅ [v_text std_string []]) !! 0 = Some None.
Proof.
  split; [reflexivity|]. split; [reflexivity|].
  refine (proj1 (proj2 (proj2 (proj1 (proj2 (proj2 (proj2 (proj2 (proj2
    (params_binary_and_empty_text example_oid_of size_of ∅
       [v_text std_string []]))))))
    0 std_string eq_refl eq_refl)))).
Defined.

Lemma extract_new_udts_finds_unregistered_witness :
  occurs point (t_array point) ∧
  {| name := "point"; type := 1 |} ∈ extract_new_udts (t_array point) ∅ [].
Proof.
  assert (Hocc : occurs point (t_array point)) by (apply occurs_array, occurs_here).
  split; [exact Hocc|].
  apply (proj1 (extract_new_udts_finds_unregistered ∅ (t_array point))).
  exists 1, "point"%string, [t_integral 4; t_integral 4].
  split; [exact Hocc|]. split; reflexivity.
Defined.

End PsqlScenarios.

(** * Further properties of the connection *)

Section ExecInvariant.
Import Asiofiedpq.

(** What [handle] can do to a handler: a single-query handler takes the result
    and completes; a pipeline handler keeps its range end, moves [first_] or
    the dummy count, and either completes or keeps its status. *)
Lemma handle_shape h st res h' st' :
  handle h st res = Ok (h', st') →
  (∃ r0, body h = single_query_result_handler r0 ∧
     h' = complete (with_body h (single_query_result_handler res)) ∧ st' = st) ∨
  (∃ f l n f' n', body h = pipeline_result_handler f l n ∧
     (h' = with_body h (pipeline_result_handler f' l n') ∨
      h' = complete (with_body h (pipeline_result_handler f' l n')))).
Proof.
  unfold handle. destruct (body h) as [r0|f l n] eqn:Hb.
  - intros [= <- <-]. left. by exists r0.
  - intros Hh. right. exists f, l, n. destruct (decide (n ≠ 0)%Z).
    + injection Hh as <- <-. exists f, (size_t_wrap (n - 1)).
      split; [done|]. destruct (decide _); [by right|by left].
    + destruct (write_result st f res); [|done]. injection Hh as <- <-.
      exists (f + 1)%Z, n. split; [done|]. destruct (decide _); [by right|by left].
Qed.

Lemma results_handled_snoc c hs q w p id0 res id :
  results_handled
    {| handlers := hs; result_handlers_ := q; write_cv_ := w; popped := p;
       handled := handled c ++ [(id0, res)] |} id =
  results_handled c id ++ (if decide (id0 = id) then [res] else []).
Proof.
  unfold results_handled; simpl. rewrite filter_app, fmap_app. f_equal.
  rewrite filter_cons, filter_nil. simpl. by destruct (decide (id0 = id)).
Qed.

Lemma results_handled_same c c' id :
  handled c' = handled c → results_handled c' id = results_handled c id.
Proof. unfold results_handled. by intros ->. Qed.

Lemma exec_inv_new : exec_inv new_connection.
Proof.
  split.
  - apply queue_inv_new.
  - intros call Hin. by apply elem_of_nil in Hin.
  - intros id o Ho. by destruct id.
  - intros id o k Ho. by destruct id.
  - intros id o r Ho. by destruct id.
  - intros id o ec r Ho. by destruct id.
Qed.

Lemma results_handled_fresh c id :
  (∀ call, call ∈ handled c → call.1 < id) → results_handled c id = [].
Proof.
  intros Hlt. unfold results_handled.
  induction (handled c) as [|call calls IH]; [done|].
  rewrite filter_cons. destruct (decide (call.1 = id)) as [Heq|_].
  - specialize (Hlt call (list_elem_of_here _ _)). lia.
  - apply IH. intros call' Hin. apply Hlt. by right.
Qed.

(** An exec that gets as far as enqueuing its handler keeps the invariant. *)
Lemma exec_inv_enqueue c h st :
  get_status h = waiting → cv_ h = 0 →
  exec_inv c →
  exec_inv (enqueue {| rh := h; storage := st; delivered := None |} c).
Proof.
  intros Hw Hcv [Hq Hh Hc Hd Hs Hkind].
  assert (Hlook : ∀ id o,
    (handlers c ++ [{| rh := h; storage := st; delivered := None |}]) !! id = Some o →
    (id < length (handlers c) ∧ handlers c !! id = Some o) ∨
    (id = length (handlers c) ∧ o = {| rh := h; storage := st; delivered := None |})).
  { intros id o Ho. destruct (decide (id < length (handlers c))) as [Hlt|Hge].
    - left. by rewrite lookup_app_l in Ho.
    - right. rewrite lookup_app_r in Ho by lia.
      apply list_lookup_singleton_Some in Ho as [Hid <-]. split; [lia|done]. }
  split.
  - by apply queue_inv_enqueue.
  - intros call Hin. simpl in *. destruct (Hh call Hin) as [Hlt Hns].
    rewrite length_app. simpl. split; [lia|done].
  - intros id o Ho. simpl in Ho. destruct (Hlook id o Ho) as [[_ Ho']|[_ ->]].
    + by eapply Hc.
    + simpl. rewrite Hw, Hcv. done.
  - intros id o k Ho Hk. simpl in Ho. destruct (Hlook id o Ho) as [[_ Ho']|[_ ->]].
    + by eapply Hd.
    + done.
  - intros id o r Ho Hb. simpl in Ho.
    rewrite (results_handled_same c _ id) by done.
    destruct (Hlook id o Ho) as [[_ Ho']|[-> ->]].
    + by eapply Hs.
    + simpl in *. split; [|split].
      * intros _. apply results_handled_fresh. intros call Hin. by apply Hh.
      * intros Hcomp. congruence.
      * done.
  - intros id o ec r Ho Hdel. simpl in Ho. destruct (Hlook id o Ho) as [[_ Ho']|[_ ->]].
    + by eapply Hkind.
    + done.
Qed.

Lemma exec_inv_dispatch res c c' :
  exec_inv c → dispatch res c = Ok c' → exec_inv c'.
Proof.
  intros Hinv Hdisp. pose proof Hinv as [Hq Hh Hc Hd Hs Hkind].
  assert (Hq' : queue_inv c') by (by eapply queue_inv_dispatch).
  destruct (decide (PQresultStatus res = PGRES_PIPELINE_SYNC)) as [Hsync|Hsync].
  { rewrite dispatch_sync in Hdisp by done. by injection Hdisp as <-. }
  destruct (result_handlers_ c) as [|id0 rest] eqn:Hqueue.
  { by rewrite dispatch_empty in Hdisp. }
  destruct (queue_inv_front c id0 rest Hq Hqueue) as ([o0 Ho0] & Hnp & Hnr).
  rewrite (dispatch_front res c id0 rest o0 Hsync Hqueue Ho0) in Hdisp.
  destruct (handle (rh o0) (storage o0) res) as [[h' st']| |] eqn:Hh'; try done.
  simpl in Hdisp. injection Hdisp as <-.
  assert (Hw0 : get_status (rh o0) = waiting).
  { destruct Hq as [_ _ Hqd]. specialize (Hqd id0). rewrite Hqueue in Hqd.
    specialize (Hqd (list_elem_of_here _ _)). unfold status_of in Hqd.
    rewrite Ho0 in Hqd. simpl in Hqd. congruence. }
  assert (Hlt0 : id0 < length (handlers c)) by (by eapply lookup_lt_Some).
  pose proof (handle_shape _ _ _ _ _ Hh') as Hshape.
  split; [done| | | | |].
  - intros call Hin. simpl in *. rewrite length_insert.
    apply elem_of_app in Hin as [Hin|Hin]; [by apply Hh|].
    apply list_elem_of_singleton in Hin as ->. done.
  - intros id o Ho. simpl in Ho.
    destruct (decide (id0 = id)) as [<-|Hne].
    + rewrite list_lookup_insert_eq in Ho by done. injection Ho as <-. simpl.
      pose proof (Hc id0 o0 Ho0) as Hcv0. rewrite Hw0 in Hcv0. simpl in Hcv0.
      unfold get_status in *.
      destruct Hshape as [(r0 & _ & -> & _)|(f & l & n & f' & n' & _ & [->| ->])];
        simpl; rewrite ?Hw0, ?Hcv0; done.
    + rewrite list_lookup_insert_ne in Ho by done. by eapply Hc.
  - intros id o k Ho Hk. simpl in Ho.
    destruct (decide (id0 = id)) as [<-|Hne].
    + rewrite list_lookup_insert_eq in Ho by done. injection Ho as <-.
      simpl in Hk. destruct (Hd id0 o0 k Ho0 Hk) as [Hab|[_ Hcomp]]; [by left|].
      congruence.
    + rewrite list_lookup_insert_ne in Ho by done. by eapply Hd.
  - intros id o r Ho Hb. simpl in Ho. rewrite results_handled_snoc.
    destruct (decide (id0 = id)) as [<-|Hne].
    + rewrite list_lookup_insert_eq in Ho by done. injection Ho as <-.
      simpl in Hb.
      destruct Hshape as [(r0 & Hb0 & -> & _)|(f & l & n & f' & n' & _ & [->| ->])];
        simpl in Hb; try done.
      injection Hb as <-.
      destruct (Hs id0 o0 r0 Ho0 Hb0) as (Hnone & _ & _). rewrite (Hnone Hw0).
      simpl. split; [done|]. split; [done|].
      intros r' Hdel. destruct (Hd id0 o0 _ Ho0 Hdel) as [?|[_ ?]]; [done|congruence].
    + rewrite list_lookup_insert_ne in Ho by done. rewrite app_nil_r.
      by eapply Hs.
  - intros id o ec r Ho Hdel. simpl in Ho.
    destruct (decide (id0 = id)) as [<-|Hne].
    + rewrite list_lookup_insert_eq in Ho by done. injection Ho as <-.
      simpl in *. destruct (Hkind id0 o0 ec r Ho0 Hdel) as [[r0 Hb0] Hnull].
      split; [|done].
      destruct Hshape as [(r1 & _ & -> & _)|(f & l & n & f' & n' & Hb & _)].
      * by eexists.
      * congruence.
    + rewrite list_lookup_insert_ne in Ho by done. by eapply Hkind.
Qed.

Lemma exec_inv_resume id1 c : exec_inv c → exec_inv (resume id1 c).
Proof.
  intros Hinv. pose proof Hinv as [Hq Hh Hc Hd Hs Hkind].
  assert (Hq' : queue_inv (resume id1 c)) by (by apply queue_inv_resume).
  unfold resume in *. destruct (handlers c !! id1) as [o1|] eqn:Ho1; [|done].
  assert (Hlt1 : id1 < length (handlers c)) by (by eapply lookup_lt_Some).
  assert (Hst1 : get_status (rh o1) = waiting ∨ get_status (rh o1) = completed).
  { apply (queue_inv_names c id1 Hq) in Hlt1.
    destruct Hq as [_ Hp Hqd]. unfold status_of in Hp, Hqd.
    apply elem_of_app in Hlt1 as [Hin|Hin].
    - right. specialize (Hp id1 Hin). rewrite Ho1 in Hp. simpl in Hp. congruence.
    - left. specialize (Hqd id1 Hin). rewrite Ho1 in Hqd. simpl in Hqd. congruence. }
  assert (Hrh : get_status (rh (resume_operation o1)) = get_status (rh o1) ∧
                cv_ (rh (resume_operation o1)) = cv_ (rh o1)).
  { unfold resume_operation. destruct (delivered o1); [done|].
    destruct (body (rh o1)); destruct (get_status (rh o1)) eqn:Est; simpl; done. }
  split; [done| | | | |].
  - intros call Hin. simpl in *. rewrite length_insert. by apply Hh.
  - intros id o Ho. simpl in Ho. destruct (decide (id1 = id)) as [<-|Hne].
    + rewrite list_lookup_insert_eq in Ho by done. injection Ho as <-.
      destruct Hrh as [-> ->]. by eapply Hc.
    + rewrite list_lookup_insert_ne in Ho by done. by eapply Hc.
  - intros id o k Ho Hk. simpl in Ho. destruct (decide (id1 = id)) as [<-|Hne].
    + rewrite list_lookup_insert_eq in Ho by done. injection Ho as <-.
      destruct Hrh as [Hrs _]. rewrite Hrs.
      unfold resume_operation in Hk.
      destruct (delivered o1) as [k1|] eqn:Hd1.
      { rewrite Hd1 in Hk. injection Hk as <-. by eapply Hd. }
      destruct (body (rh o1)); destruct Hst1 as [Hst|Hst]; rewrite Hst in Hk |- *;
        simpl in Hk; injection Hk as <-; simpl; auto.
    + rewrite list_lookup_insert_ne in Ho by done. by eapply Hd.
  - intros id o r Ho Hb. simpl in Ho.
    rewrite (results_handled_same c _ id) by done.
    destruct (decide (id1 = id)) as [<-|Hne].
    + rewrite list_lookup_insert_eq in Ho by done. injection Ho as <-.
      unfold resume_operation in *.
      destruct (delivered o1) as [k1|] eqn:Hd1.
      { by eapply Hs. }
      destruct (body (rh o1)) as [r1|f l n] eqn:Hb1.
      * destruct (Hs id1 o1 r1 Ho1 Hb1) as (Hnone & Hone & _).
        unfold get_status in *.
        destruct Hst1 as [Hst|Hst]; rewrite Hst in *; simpl in *; rewrite ?Hst.
        -- split; [auto|]. split; [done|]. intros r' Hdel. done.
        -- split; [done|]. split; [done|]. intros r' [= <-]. by apply Hone.
      * unfold get_status in *.
        destruct (status_ (rh o1)); simpl in Hb; unfold dumify in Hb; congruence.
    + rewrite list_lookup_insert_ne in Ho by done. by eapply Hs.
  - intros id o ec r Ho Hdel. simpl in Ho. destruct (decide (id1 = id)) as [<-|Hne].
    + rewrite list_lookup_insert_eq in Ho by done. injection Ho as <-.
      unfold resume_operation in *.
      destruct (delivered o1) as [k1|] eqn:Hd1; [by eapply Hkind|].
      destruct (body (rh o1)) as [r1|f l n] eqn:Hb1;
        destruct (get_status (rh o1)); simpl in *; try done;
        injection Hdel as <- <-; (split; [by eexists|done]).
    + rewrite list_lookup_insert_ne in Ho by done. by eapply Hkind.
Qed.

Lemma exec_inv_step c c' : exec_inv c → step c c' → exec_inv c'.
Proof.
  intros Hinv Hstep. destruct Hstep as [c|c st first last|c res c' Hd|c id].
  - by apply exec_inv_enqueue.
  - by apply exec_inv_enqueue.
  - by eapply exec_inv_dispatch.
  - by apply exec_inv_resume.
Qed.

Lemma reachable_exec_inv c : reachable c → exec_inv c.
Proof.
  intros Hreach.
  eapply (rtc_ind_r (λ c, exec_inv c) new_connection);
    [apply exec_inv_new| |exact Hreach].
  intros y z _ Hstep Hy. by eapply exec_inv_step.
Qed.

(** ** What the queue and the handlers tell *)

(** X1: in every reachable state the queue holds exactly the handlers that are
    still [waiting], each once; the handlers that left it are exactly the
    [completed] ones; and no handler is [cancelled] while the connection
    lives. *)
Theorem queue_holds_exactly_the_waiting c id :
  reachable c →
  (id ∈ result_handlers_ c ↔ status_of c id = Some waiting) ∧
  (id ∈ popped c ↔ status_of c id = Some completed) ∧
  status_of c id ≠ Some cancelled ∧
  NoDup (result_handlers_ c).
Proof.
  intros Hreach. pose proof (reachable_queue_inv c Hreach) as Hq.
  pose proof (queue_inv_names c id Hq) as Hnames.
  pose proof (queue_inv_NoDup c Hq) as Hnd.
  destruct Hq as [_ Hp Hqd].
  assert (Hsome : ∀ s, status_of c id = Some s →
            id ∈ popped c ∨ id ∈ result_handlers_ c).
  { intros s Hs. apply elem_of_app, Hnames. unfold status_of in Hs.
    destruct (handlers c !! id) eqn:Ho; [|done]. by eapply lookup_lt_Some. }
  split; [|split; [|split]].
  - split; [apply Hqd|]. intros Hw. destruct (Hsome _ Hw) as [Hin|Hin]; [|done].
    specialize (Hp id Hin). congruence.
  - split; [apply Hp|]. intros Hc. destruct (Hsome _ Hc) as [Hin|Hin]; [done|].
    specialize (Hqd id Hin). congruence.
  - intros Hc. destruct (Hsome _ Hc) as [Hin|Hin].
    + specialize (Hp id Hin). congruence.
    + specialize (Hqd id Hin). congruence.
  - by apply NoDup_app in Hnd as (_ & _ & ?).
Qed.

(** The destructor, handler by handler: the queued ones are cancelled once, the
    others are left alone. *)
Lemma cancel_all_lookup q : ∀ hs id,
  NoDup q →
  cancel_all q hs !! id =
    if decide (id ∈ q)
    then (λ o, {| rh := cancel (rh o); storage := storage o;
                  delivered := delivered o |}) <$> (hs !! id)
    else hs !! id.
Proof.
  induction q as [|id' q IH]; intros hs id Hnd.
  { destruct (decide (id ∈ [])) as [Hin|]; [|done]. by apply elem_of_nil in Hin. }
  apply NoDup_cons in Hnd as [Hnotin Hnd]. cbn [cancel_all]. rewrite IH by done.
  destruct (decide (id ∈ id' :: q)) as [Hin|Hnin];
    destruct (decide (id ∈ q)) as [Hin'|Hnin'].
  - assert (id' ≠ id) by (by intros ->).
    destruct (hs !! id') eqn:Ho'; [|done]. by rewrite list_lookup_insert_ne.
  - apply elem_of_cons in Hin as [->|?]; [|done].
    destruct (hs !! id') as [o'|] eqn:Ho'; [|by rewrite Ho'].
    by rewrite list_lookup_insert_eq by (by eapply lookup_lt_Some).
  - exfalso. apply Hnin. by right.
  - destruct (hs !! id') eqn:Ho'; [|done].
    rewrite list_lookup_insert_ne; [done|]. intros ->. apply Hnin. by left.
Qed.

(** X2: a handler signals its waiter exactly when it leaves [waiting], and
    only once: in every reachable state [cancel_one] was called on [cv_] not at
    all for a [waiting] handler and once for any other; after the destructor it
    was called once on every handler. *)
Theorem handler_signals_its_waiter_once c :
  reachable c →
  (∀ id o, handlers c !! id = Some o →
     cv_ (rh o) = if decide (get_status (rh o) = waiting) then 0 else 1) ∧
  (∀ id o, handlers (destroy c) !! id = Some o →
     cv_ (rh o) = 1 ∧ get_status (rh o) ≠ waiting).
Proof.
  intros Hreach. pose proof (reachable_exec_inv c Hreach) as [Hq _ Hc _ _ _].
  split; [exact Hc|]. intros id o Ho. simpl in Ho.
  assert (Hnd : NoDup (result_handlers_ c)).
  { by apply queue_inv_NoDup, NoDup_app in Hq as (_ & _ & ?). }
  rewrite (cancel_all_lookup _ _ _ Hnd) in Ho.
  destruct (decide (id ∈ result_handlers_ c)) as [Hin|Hnin].
  - destruct (handlers c !! id) as [o0|] eqn:Ho0; [|done].
    simpl in Ho. injection Ho as <-. simpl.
    destruct Hq as [_ _ Hqd]. specialize (Hqd id Hin). unfold status_of in Hqd.
    rewrite Ho0 in Hqd. simpl in Hqd. injection Hqd as Hw.
    specialize (Hc id o0 Ho0). rewrite Hw in Hc. simpl in Hc. by rewrite Hc.
  - assert (Hlt : id < length (handlers c)) by (by eapply lookup_lt_Some).
    apply (queue_inv_names c id Hq) in Hlt.
    apply elem_of_app in Hlt as [Hp|?]; [|done].
    destruct Hq as [_ Hpop _]. specialize (Hpop id Hp). unfold status_of in Hpop.
    rewrite Ho in Hpop. simpl in Hpop. injection Hpop as Hcomp.
    specialize (Hc id o Ho). rewrite Hcomp in Hc |- *. simpl in Hc. done.
Qed.


Lemma elem_of_results_handled c id r :
  r ∈ results_handled c id ↔ (id, r) ∈ handled c.
Proof.
  unfold results_handled. rewrite list_elem_of_fmap. split.
  - intros ([id' r'] & -> & [Hid Hin]%list_elem_of_filter). simpl in *. by subst.
  - intros Hin. exists (id, r). split; [done|]. by apply list_elem_of_filter.
Qed.

(** X4: the result [async_query] hands to its caller with no error is the one
    result, and the only one, that the reader passed to the handler of that
    query; it is not a sync marker. *)
Theorem async_query_returns_the_dispatched_result c id o r :
  reachable c →
  handlers c !! id = Some o →
  delivered o = Some (query_completion success r) →
  results_handled c id = [r] ∧ (id, r) ∈ handled c ∧
  PQresultStatus r ≠ PGRES_PIPELINE_SYNC.
Proof.
  intros Hreach Ho Hdel.
  pose proof (reachable_exec_inv c Hreach) as [_ Hh _ _ Hs Hk].
  assert (Hres : results_handled c id = [r]).
  { destruct (Hk id o success r Ho Hdel) as [[r0 Hb] _].
    destruct (Hs id o r0 Ho Hb) as (_ & _ & Hthird). by apply Hthird. }
  assert (Hin : (id, r) ∈ handled c).
  { apply elem_of_results_handled. rewrite Hres. by left. }
  split; [done|]. split; [done|]. by destruct (Hh _ Hin).
Qed.

(** X5: when the connection is destroyed, an exec operation that is still
    suspended completes, once resumed, with [connection_failed] (and a null
    result for a query) if its handler was still in the queue, and with no
    error (and the stored result for a query) if its handler had already left
    the queue. *)
Theorem destroyed_connection_fails_pending_execs c id o :
  reachable c →
  handlers c !! id = Some o →
  delivered o = None →
  ∃ o', handlers (resume id (destroy c)) !! id = Some o' ∧
    (id ∈ result_handlers_ c →
       get_status (rh o') = cancelled ∧
       delivered o' = Some
         match body (rh o) with
         | single_query_result_handler _ =>
             query_completion connection_failed nullptr
         | pipeline_result_handler _ _ _ => pipeline_completion connection_failed
         end) ∧
    (id ∉ result_handlers_ c →
       get_status (rh o') = completed ∧
       delivered o' = Some
         match body (rh o) with
         | single_query_result_handler r => query_completion success r
         | pipeline_result_handler _ _ _ => pipeline_completion success
         end).
Proof.
  intros Hreach Ho Hdel. pose proof (reachable_queue_inv c Hreach) as Hq.
  assert (Hnd : NoDup (result_handlers_ c)).
  { by apply queue_inv_NoDup, NoDup_app in Hq as (_ & _ & ?). }
  assert (Hlt : id < length (handlers c)) by (by eapply lookup_lt_Some).
  pose proof (cancel_all_lookup (result_handlers_ c) (handlers c) id Hnd) as Hlook.
  rewrite Ho in Hlook. simpl in Hlook.
  destruct (decide (id ∈ result_handlers_ c)) as [Hin|Hnin].
  - exists (resume_operation {| rh := cancel (rh o); storage := storage o;
                                delivered := delivered o |}).
    split; [|split; [|done]].
    + unfold resume. simpl. rewrite Hlook. simpl.
      apply list_lookup_insert_eq. by rewrite cancel_all_length.
    + intros _. unfold resume_operation; simpl. rewrite Hdel.
      destruct (body (rh o)); done.
  - exists (resume_operation o). split; [|split; [done|]].
    + unfold resume. simpl. rewrite Hlook. simpl.
      apply list_lookup_insert_eq. by rewrite cancel_all_length.
    + intros _.
      assert (Hcomp : get_status (rh o) = completed).
      { apply (queue_inv_names c id Hq) in Hlt.
        apply elem_of_app in Hlt as [Hp|?]; [|done].
        destruct Hq as [_ Hpop _]. specialize (Hpop id Hp). unfold status_of in Hpop.
        rewrite Ho in Hpop. simpl in Hpop. congruence. }
      unfold resume_operation. rewrite Hdel.
      destruct (body (rh o)); rewrite Hcomp; simpl; done.
Qed.

(** ** A pipeline from its submission to its completion *)




End ExecInvariant.

(** * Further properties of the order of service and of cancelled pipelines *)

Section ExecOrder.
Import Asiofiedpq.

Lemma seq_front (l1 : list nat) x l2 n :
  l1 ++ x :: l2 = seq 0 n → x = length l1.
Proof.
  intros Heq.
  assert (Hx : (l1 ++ x :: l2) !! length l1 = Some x).
  { rewrite lookup_app_r by lia. by rewrite Nat.sub_diag. }
  rewrite Heq in Hx. apply lookup_seq in Hx. lia.
Qed.

Lemma seq_prefix_elem (l1 l2 : list nat) n a :
  l1 ++ l2 = seq 0 n → a < length l1 → a ∈ l1.
Proof.
  intros Heq Hlt. destruct (lookup_lt_is_Some_2 l1 a Hlt) as [x Hx].
  assert (Hx' : (l1 ++ l2) !! a = Some x) by (by rewrite lookup_app_l).
  rewrite Heq in Hx'. apply lookup_seq in Hx' as [-> _].
  apply list_elem_of_lookup. by exists a.
Qed.

(** Every [handle] call made so far went to a handler that has left the queue
    or is at its front, and the calls went to the handlers in the order of
    their names. *)
Lemma served_in_order c :
  reachable c →
  (∀ call, call ∈ handled c →
     call.1 < length (popped c) ∨ head (result_handlers_ c) = Some call.1) ∧
  (∀ i j a b, i ≤ j → handled c !! i = Some a → handled c !! j = Some b →
     a.1 ≤ b.1).
Proof.
  intros Hreach.
  eapply (rtc_ind_r (λ c,
    (∀ call, call ∈ handled c →
       call.1 < length (popped c) ∨ head (result_handlers_ c) = Some call.1) ∧
    (∀ i j a b, i ≤ j → handled c !! i = Some a → handled c !! j = Some b →
       a.1 ≤ b.1)) new_connection); [| |exact Hreach].
  { split; [intros call Hin; by apply elem_of_nil in Hin|].
    intros i j a b _ Ha. by destruct i. }
  intros c1 c2 Hreach1 Hstep [Hfront Hsorted].
  pose proof (reachable_queue_inv c1 Hreach1) as Hq.
  assert (Henq : ∀ o, (∀ call, call ∈ handled (enqueue o c1) →
       call.1 < length (popped (enqueue o c1)) ∨
       head (result_handlers_ (enqueue o c1)) = Some call.1) ∧
    (∀ i j a b, i ≤ j → handled (enqueue o c1) !! i = Some a →
       handled (enqueue o c1) !! j = Some b → a.1 ≤ b.1)).
  { intros o. split; [|exact Hsorted]. intros call Hin. simpl in *.
    destruct (Hfront call Hin) as [Hlt|Hhead]; [by left|right].
    destruct (result_handlers_ c1); [done|exact Hhead]. }
  destruct Hstep as [c1|c1 st first last|c1 res c2 Hd|c1 id1].
  - apply Henq.
  - apply Henq.
  - destruct (decide (PQresultStatus res = PGRES_PIPELINE_SYNC)) as [Hsync|Hsync].
    { rewrite dispatch_sync in Hd by done. injection Hd as <-. done. }
    destruct (result_handlers_ c1) as [|id0 rest] eqn:Hqueue.
    { by rewrite dispatch_empty in Hd. }
    destruct (queue_inv_front c1 id0 rest Hq Hqueue) as ([o0 Ho0] & _ & _).
    rewrite (dispatch_front res c1 id0 rest o0 Hsync Hqueue Ho0) in Hd.
    destruct (handle (rh o0) (storage o0) res) as [[h' st']| |]; try done.
    simpl in Hd. injection Hd as <-. simpl.
    assert (Hid0 : id0 = length (popped c1)).
    { destruct Hq as [Hord _ _]. rewrite Hqueue in Hord. by eapply seq_front. }
    assert (Hold : ∀ call, call ∈ handled c1 → call.1 ≤ id0).
    { intros call Hin. destruct (Hfront call Hin) as [Hlt|Hhead]; [lia|].
      simpl in Hhead. injection Hhead as <-. done. }
    split.
    + intros call Hin. apply elem_of_app in Hin as [Hin|Hin].
      * specialize (Hold call Hin). destruct (Hfront call Hin) as [Hlt|Hhead].
        -- left. case_bool_decide; [rewrite length_app; simpl|]; lia.
        -- simpl in Hhead. injection Hhead as Hc.
           case_bool_decide; [left; rewrite length_app; simpl; lia|right].
           simpl. by rewrite Hc.
      * apply list_elem_of_singleton in Hin as ->. simpl.
        case_bool_decide; [left; rewrite length_app; simpl; lia|by right].
    + intros i j a b Hij Ha Hb.
      destruct (decide (j < length (handled c1))) as [Hj|Hj].
      * rewrite lookup_app_l in Ha by lia. rewrite lookup_app_l in Hb by lia.
        exact (Hsorted i j a b Hij Ha Hb).
      * rewrite lookup_app_r in Hb by lia.
        apply list_lookup_singleton_Some in Hb as [_ <-]. simpl.
        destruct (decide (i < length (handled c1))) as [Hi|Hi].
        -- rewrite lookup_app_l in Ha by lia. apply Hold.
           apply list_elem_of_lookup. by exists i.
        -- rewrite lookup_app_r in Ha by lia.
           apply list_lookup_singleton_Some in Ha as [_ <-]. done.
  - unfold resume. by destruct (handlers c1 !! id1).
Qed.

(** X16: the reader serves the handlers in the order they were enqueued: in
    the history of [handle] calls the handlers appear in non-decreasing order
    of enqueuing, each call went to a handler that has left the queue since or is
    at the front of the queue now, and no handler behind the front has been
    given any result. *)
Theorem reader_serves_handlers_in_enqueue_order c :
  reachable c →
  (∀ i j a b, i ≤ j → handled c !! i = Some a → handled c !! j = Some b →
     a.1 ≤ b.1) ∧
  (∀ call, call ∈ handled c →
     call.1 ∈ popped c ∨ head (result_handlers_ c) = Some call.1) ∧
  (∀ id, id ∈ tail (result_handlers_ c) → results_handled c id = []).
Proof.
  intros Hreach. destruct (served_in_order c Hreach) as [Hfront Hsorted].
  pose proof (reachable_queue_inv c Hreach) as Hq.
  split; [exact Hsorted|]. split.
  - intros call Hin. destruct (Hfront call Hin) as [Hlt|Hhead]; [left|by right].
    destruct Hq as [Hord _ _]. by eapply seq_prefix_elem.
  - intros id Hid.
    destruct (result_handlers_ c) as [|id0 rest] eqn:Hqueue; [by apply elem_of_nil in Hid|].
    simpl in Hid.
    assert (Hne : (id ∉ popped c) ∧ id ≠ id0).
    { pose proof (queue_inv_NoDup c Hq) as Hnd. rewrite Hqueue in Hnd.
      apply NoDup_app in Hnd as (_ & Hdisj & Hnd). apply NoDup_cons in Hnd as [Hni _].
      split; [|by intros ->]. intros Hin. apply (Hdisj id Hin). by right. }
    destruct (results_handled c id) as [|r rs] eqn:Hres; [done|].
    assert (Hin : (id, r) ∈ handled c).
    { apply elem_of_results_handled. rewrite Hres. by left. }
    destruct (Hfront _ Hin) as [Hlt|Hhead]; simpl in *.
    + exfalso. apply (proj1 Hne). destruct Hq as [Hord _ _].
      rewrite Hqueue in Hord. by eapply seq_prefix_elem.
    + injection Hhead as ->. by destruct Hne.
Qed.

(** X17: once a pipeline whose wait was cancelled is in dummy mode, the
    caller's container is never written through its handler again, whatever
    happens on the connection: the handler counts down one per result it is
    given, stays [waiting] while the count is positive and is [completed] when
    it reaches zero, and the container it points into is left as it was. *)
Theorem cancelled_pipeline_never_writes_again c id o f l n c' :
  reachable c →
  handlers c !! id = Some o →
  body (rh o) = pipeline_result_handler f l n →
  (0 < n < 2 ^ 64)%Z →
  get_status (rh o) = waiting →
  delivered o ≠ None →
  rtc step c c' →
  ∃ o' n',
    handlers c' !! id = Some o' ∧
    storage o' = storage o ∧
    delivered o' = delivered o ∧
    body (rh o') = pipeline_result_handler f l n' ∧
    (n' + Z.of_nat (length (results_handled c' id)) =
     n + Z.of_nat (length (results_handled c id)))%Z ∧
    ((0 < n' ∧ get_status (rh o') = waiting)%Z ∨
     (n' = 0%Z ∧ get_status (rh o') = completed)).
Proof.
  intros Hreach Ho Hb Hn Hw Hdel Hrun.
  eapply (rtc_ind_r (λ c', reachable c' ∧ ∃ o' n',
    handlers c' !! id = Some o' ∧
    storage o' = storage o ∧
    delivered o' = delivered o ∧
    body (rh o') = pipeline_result_handler f l n' ∧
    (n' ≤ n)%Z ∧
    (n' + Z.of_nat (length (results_handled c' id)) =
     n + Z.of_nat (length (results_handled c id)))%Z ∧
    ((0 < n' ∧ get_status (rh o') = waiting)%Z ∨
     (n' = 0%Z ∧ get_status (rh o') = completed))) c) in Hrun.
  - destruct Hrun as (_ & o' & n' & H1 & H2 & H3 & H4 & _ & H5 & H6).
    by exists o', n'.
  - split; [done|]. exists o, n. repeat (split; [done || lia|]). left. split; [lia|done].
  - clear c' Hrun.
    intros c1 c2 _ Hstep (Hreach1 & o1 & n1 & Ho1 & Hst1 & Hd1 & Hb1 & Hle & Hcount & Hmode).
    assert (Hreach2 : reachable c2).
    { unfold reachable. eapply rtc_r; [exact Hreach1|exact Hstep]. }
    split; [exact Hreach2|].
    pose proof (reachable_queue_inv c1 Hreach1) as Hq.
    assert (Hlt : id < length (handlers c1)) by (by eapply lookup_lt_Some).
    destruct Hstep as [c1|c1 st first last|c1 res c2 Hd|c1 id1].
    + exists o1, n1. simpl. rewrite lookup_app_l by done.
      rewrite (results_handled_same c1 _ id) by done. done.
    + exists o1, n1. simpl. rewrite lookup_app_l by done.
      rewrite (results_handled_same c1 _ id) by done. done.
    + destruct (decide (PQresultStatus res = PGRES_PIPELINE_SYNC)) as [Hsync|Hsync].
      { rewrite dispatch_sync in Hd by done. injection Hd as <-. by exists o1, n1. }
      destruct (result_handlers_ c1) as [|id0 rest] eqn:Hqueue.
      { by rewrite dispatch_empty in Hd. }
      destruct (queue_inv_front c1 id0 rest Hq Hqueue) as ([o0 Ho0] & _ & _).
      rewrite (dispatch_front res c1 id0 rest o0 Hsync Hqueue Ho0) in Hd.
      destruct (handle (rh o0) (storage o0) res) as [[h' st']| |] eqn:Hh; try done.
      simpl in Hd. injection Hd as <-. rewrite results_handled_snoc. simpl.
      destruct (decide (id0 = id)) as [->|Hne].
      2:{ exists o1, n1. rewrite list_lookup_insert_ne by done.
          by rewrite app_nil_r. }
      rewrite Ho1 in Ho0. injection Ho0 as <-.
      assert (Hw1 : get_status (rh o1) = waiting).
      { pose proof (inv_queued c1 Hq id) as Hqd.
        rewrite Hqueue in Hqd. specialize (Hqd (list_elem_of_here _ _)).
        unfold status_of in Hqd. rewrite Ho1 in Hqd. simpl in Hqd. congruence. }
      destruct Hmode as [[Hpos _]|[_ Hc]]; [|congruence].
      rewrite (handle_dummy (rh o1) (storage o1) res f l n1 Hb1) in Hh by lia.
      injection Hh as <- <-. rewrite list_lookup_insert_eq by done.
      eexists _, (n1 - 1)%Z. split; [reflexivity|]. simpl.
      split; [done|]. split; [done|].
      split; [by destruct (decide (n1 - 1 = 0)%Z)|].
      split; [lia|]. rewrite length_app. simpl. split; [lia|].
      destruct (decide (n1 - 1 = 0)%Z) as [Hz|Hnz]; [by right|].
      left. split; [lia|]. simpl. exact Hw1.
    + unfold resume. destruct (handlers c1 !! id1) as [o2|] eqn:Ho2.
      2:{ by exists o1, n1. }
      simpl. rewrite (results_handled_same c1 _ id) by done.
      destruct (decide (id1 = id)) as [->|Hne].
      2:{ exists o1, n1. by rewrite list_lookup_insert_ne. }
      rewrite Ho1 in Ho2. injection Ho2 as <-.
      rewrite list_lookup_insert_eq by done.
      exists o1, n1. unfold resume_operation.
      destruct (delivered o1) as [k|] eqn:Hk; [done|]. congruence.
Qed.

End ExecOrder.

(** * Further properties of the run-loop, the submission and the handshake *)

Section Loops.
Import Asiofiedpq.
Context {W : Type} (N : native W).

(** X7: the reader half never returns success: the code it returns is the
    error of a wait on the socket or [pqconsumeinput_failed]; and so
    [async_run], whatever the writer half returned, never returns success
    either. *)
Theorem reader_returns_an_error fuel w c ec w' c' :
  reader N fuel w c = Ok (ec, w', c') →
  is_error ec = true ∧
  (ec = pqconsumeinput_failed ∨ ∃ w0, (async_wait N wait_read w0).1 = ec) ∧
  ∀ order ec1,
    is_error (async_run_result {| order := order; ec1 := ec1; ec2 := ec |}) = true.
Proof.
  revert w c. induction fuel as [|fuel IH]; intros w c; [done|].
  cbn [reader].
  destruct (reader_drain N (S fuel) w c) as [[w1 c1]| |]; try done.
  cbn [mbind outcome_bind]. unfold reader_refill.
  destruct (async_wait N wait_read w1) as [ecw w2] eqn:Hwait.
  destruct (is_error ecw) eqn:Herr.
  - intros [= <- <- <-]. split; [done|]. split.
    + right. exists w1. by rewrite Hwait.
    + intros order ec1. unfold async_run_result; simpl.
      by destruct (is_error ec1) eqn:?.
  - destruct (PQconsumeInput N w2) as [[|] w3].
    + apply IH.
    + intros [= <- <- <-]. split; [done|]. split; [by left|].
      intros order ec1. unfold async_run_result; simpl. by destruct (is_error ec1) eqn:?.
Qed.

Lemma writer_flush_error fuel w ec w' :
  writer_flush N fuel w = Ok (Some ec, w') →
  is_error ec = true ∧ ∃ w0, (async_wait N wait_write w0).1 = ec.
Proof.
  revert w. induction fuel as [|fuel IH]; intros w; [done|]. cbn [writer_flush].
  destruct (PQflush N w) as [[|] w1]; [|done].
  destruct (async_wait N wait_write w1) as [ecw w2] eqn:Hwait.
  destruct (is_error ecw) eqn:Herr.
  - intros [= <- <-]. split; [done|]. exists w1. by rewrite Hwait.
  - apply IH.
Qed.

(** A flush that is over left nothing to send. *)
Lemma writer_flush_done fuel w w' :
  writer_flush N fuel w = Ok (None, w') →
  ∃ w0, PQflush N w0 = (false, w').
Proof.
  revert w. induction fuel as [|fuel IH]; intros w; [done|]. cbn [writer_flush].
  destruct (PQflush N w) as [[|] w1] eqn:Hflush.
  - destruct (async_wait N wait_write w1) as [ecw w2].
    destruct (is_error ecw); [done|]. apply IH.
  - intros [= <-]. by exists w.
Qed.

(** X8: the writer half ends in one of three ways only: on a wake-up of
    [write_cv_] whose code is not [operation_aborted], with that code; on its
    own cancellation while it waits on [write_cv_], with [operation_aborted],
    the code registered at line 332; or on a failed wait for the socket to be
    writable, with that error.  In the first two cases every wait before the
    last one was ended by [cancel_one]. *)
Theorem writer_ends_on_a_wakeup_a_cancellation_or_a_socket_error
    fuel wakeups w ec w' :
  writer N fuel wakeups w = Ok (ec, w') →
  (∃ k, wakeups !! k = Some (timer_completed ec) ∧ ec ≠ operation_aborted ∧
        take k wakeups = replicate k (timer_completed operation_aborted)) ∨
  (∃ k, wakeups !! k = Some writer_cancelled ∧ ec = operation_aborted ∧
        take k wakeups = replicate k (timer_completed operation_aborted)) ∨
  (is_error ec = true ∧ ∃ w0, (async_wait N wait_write w0).1 = ec).
Proof.
  revert w. induction wakeups as [|[ec0|] wakeups IH]; intros w; [done| |].
  - cbn [writer]. destruct (decide (ec0 ≠ operation_aborted)) as [Hne|Heq].
    + intros [= <- <-]. left. by exists 0.
    + assert (ec0 = operation_aborted) as ->.
      { destruct (decide (ec0 = operation_aborted)); [done|]. exfalso; auto. }
      destruct (writer_flush N fuel w) as [[[ecf|] w1]| |] eqn:Hflush; try done.
      * cbn. intros [= <- <-]. right; right. by eapply writer_flush_error.
      * cbn. intros Hrest.
        destruct (IH _ Hrest) as [(k & Hk & Hnab & Htake)|[(k & Hk & Hab & Htake)|Herr]].
        -- left. exists (S k). simpl. split; [done|]. split; [done|]. by rewrite Htake.
        -- right; left. exists (S k). simpl. split; [done|]. split; [done|].
           by rewrite Htake.
        -- by right; right.
  - cbn [writer]. intros [= <- <-]. right; left. by exists 0.
Qed.

(** X9: the reader goes to wait on the socket only when the session says it
    is busy, or after two calls of [PQgetResult] in a row returned null with
    the session not busy in between. *)
Theorem reader_drain_stops_when_busy_or_drained fuel w c w' c' :
  reader_drain N fuel w c = Ok (w', c') →
  PQisBusy N w' = true ∨
  ∃ w0 w1, PQisBusy N w0 = false ∧ PQgetResult N w0 = (nullptr, w1) ∧
           PQisBusy N w1 = false ∧ PQgetResult N w1 = (nullptr, w').
Proof.
  revert w c. induction fuel as [|fuel IH]; intros w c; [done|]. cbn [reader_drain].
  destruct (PQisBusy N w) eqn:Hbusy; [intros [= <- <-]; by left|].
  destruct (PQgetResult N w) as [res w1] eqn:Hget. destruct res as [r|].
  - destruct (dispatch (Some r) c) as [c1| |]; try done. cbn. apply IH.
  - destruct (PQisBusy N w1) eqn:Hbusy1; [intros [= <- <-]; by left|].
    destruct (PQgetResult N w1) as [res2 w2] eqn:Hget2. destruct res2 as [r|].
    + destruct (dispatch (Some r) c) as [c1| |]; try done. cbn. apply IH.
    + intros [= <- <-]. right. by exists w, w1.
Qed.

(** The submission loop over a range that lies in the container submits the
    commands of the range, in order, up to the first refusal. *)
Lemma send_pipeline_in_range st last : ∀ n fuel w it,
  (0 ≤ it)%Z → (it + Z.of_nat n = last)%Z → (last ≤ Z.of_nat (length st))%Z →
  n < fuel →
  send_pipeline N fuel w st it last =
    Ok (send_commands N w (command <$> take n (drop (Z.to_nat it) st))).
Proof.
  induction n as [|n IH]; intros fuel w it Hit Hlast Hlen Hfuel;
    (destruct fuel as [|fuel]; [lia|]); cbn [send_pipeline].
  - rewrite decide_True by lia. done.
  - rewrite decide_False by lia. rewrite decide_True by done.
    destruct (lookup_lt_is_Some_2 st (Z.to_nat it)) as [pq Hpq]; [lia|].
    rewrite Hpq. rewrite (drop_S _ _ _ Hpq). cbn [take fmap list_fmap send_commands].
    destruct (PQsendQueryParams N w (command pq)) as [[|] w1]; [|done].
    rewrite (IH fuel w1 (it + 1)%Z) by lia.
    by replace (Z.to_nat (it + 1)) with (S (Z.to_nat it)) by lia.
Qed.

(** X10: for a range [first, last) that lies in the caller's container,
    [async_exec_pipeline] submits the commands of the range in push order and
    stops at the first one the session refuses; on a refusal, or when the sync
    is refused, it completes at once with the error, the connection is left as
    it was and no handler is enqueued, although the queries accepted so far
    stay submitted; otherwise exactly one handler is enqueued, at the back. *)
Theorem async_exec_pipeline_submits_in_push_order st first last w c :
  (0 ≤ first ≤ last)%Z → (last ≤ Z.of_nat (length st))%Z →
  let cmds := command <$> take (Z.to_nat (last - first)) (drop (Z.to_nat first) st) in
  let '(sent, w1) := send_commands N w cmds in
  async_exec_pipeline N st first last w c =
    if sent then
      let '(synced, w2) := PQpipelineSync N w1 in
      if synced then
        Ok (w2,
            enqueue {| rh := new_pipeline_result_handler first last; storage := st;
                       delivered := None |} c,
            None)
      else Ok (w2, c, Some (pipeline_completion pqpipelinesync_failed))
    else Ok (w1, c, Some (pipeline_completion pqsendqueryparams_failed)).
Proof.
  intros Hrange Hlen. cbv zeta. unfold async_exec_pipeline.
  rewrite (send_pipeline_in_range st last (Z.to_nat (last - first))) by lia.
  destruct (send_commands N w _) as [[|] w1]; cbn; [|done].
  by destruct (PQpipelineSync N w1) as [[|] w2].
Qed.

(** X11: for a reversed range in the container (last before first) and a
    session that accepts every query, the submission loop runs over the end of
    the container: it never meets [last] and reads through the iterator at the
    end of the container, which is outside it; nothing is enqueued. *)
Theorem async_exec_pipeline_reversed_range_runs_off_the_end st first last w c :
  (∀ w cmd, (PQsendQueryParams N w cmd).1 = true) →
  (0 ≤ last < first)%Z → (first ≤ Z.of_nat (length st))%Z →
  async_exec_pipeline N st first last w c =
    Fault (invalid_access (Z.of_nat (length st))).
Proof.
  intros Hacc Hrange Hlen. unfold async_exec_pipeline.
  assert (Hloop : ∀ n fuel w it,
    (last < it)%Z → (it + Z.of_nat n = Z.of_nat (length st))%Z → n < fuel →
    send_pipeline N fuel w st it last = Fault (invalid_access (Z.of_nat (length st)))).
  { induction n as [|n IH]; intros fuel w0 it Hit Hn Hfuel;
      (destruct fuel as [|fuel]; [lia|]); cbn [send_pipeline];
      rewrite decide_False by lia; rewrite decide_True by lia.
    - rewrite (proj2 (lookup_ge_None st (Z.to_nat it))) by lia. do 2 f_equal. lia.
    - destruct (lookup_lt_is_Some_2 st (Z.to_nat it)) as [pq Hpq]; [lia|].
      rewrite Hpq. specialize (Hacc w0 (command pq)).
      destruct (PQsendQueryParams N w0 (command pq)) as [ok w1]. simpl in Hacc.
      subst ok. apply IH; lia. }
  rewrite (Hloop (Z.to_nat (Z.of_nat (length st) - first))) by lia. done.
Qed.

Context (NC : native_connect W).

(** How the polling loop of the handshake can end. *)
Lemma connect_poll_result fuel w r w' :
  connect_poll N NC fuel w = Ok (r, w') →
  match r with
  | None => ∃ w0, PQconnectPoll NC w0 = (PGRES_POLLING_OK, w')
  | Some ec =>
      (ec = connection_failed ∧ ∃ w0, PQconnectPoll NC w0 = (PGRES_POLLING_FAILED, w')) ∨
      (is_error ec = true ∧ ∃ wt w0, async_wait N wt w0 = (ec, w'))
  end.
Proof.
  revert w. induction fuel as [|fuel IH]; intros w; [done|]. cbn [connect_poll].
  destruct (PQconnectPoll NC w) as [ret w1] eqn:Hpoll. destruct ret.
  - intros [= <- <-]. left. split; [done|]. by exists w.
  - destruct (async_wait N wait_read w1) as [ec w2] eqn:Hwait.
    destruct (is_error ec) eqn:Herr; [|apply IH].
    intros [= <- <-]. right. split; [done|]. by exists wait_read, w1.
  - destruct (async_wait N wait_write w1) as [ec w2] eqn:Hwait.
    destruct (is_error ec) eqn:Herr; [|apply IH].
    intros [= <- <-]. right. split; [done|]. by exists wait_write, w1.
  - intros [= <- <-]. by exists w.
  - apply IH.
Qed.

(** X12: every way [async_connect] can end.  It returns success only when the
    session did not start bad, was switched to non-blocking, a poll reported
    [PGRES_POLLING_OK] and pipeline mode was entered after that; otherwise it
    returns [pqstatus_failed] for a session that started bad,
    [pqsetnonblocking_failed] when the switch failed, [connection_failed] when
    a poll reported failure, [pqenterpipelinemode_failed] when pipeline mode
    was refused after a successful poll, or the error of a failed wait on the
    socket. *)
Theorem async_connect_outcomes fuel conninfo w ec w' :
  async_connect N NC fuel conninfo w = Ok (ec, w') →
  let w1 := PQconnectStart NC conninfo w in
  (ec = pqstatus_failed ∧ PQstatus NC w1 = CONNECTION_BAD ∧ w' = w1) ∨
  (PQstatus NC w1 ≠ CONNECTION_BAD ∧
   ((ec = pqsetnonblocking_failed ∧ PQsetnonblocking NC w1 = (true, w')) ∨
    ((PQsetnonblocking NC w1).1 = false ∧
     ((ec = success ∧
       ∃ w0 w3, PQconnectPoll NC w0 = (PGRES_POLLING_OK, w3) ∧
                PQenterPipelineMode NC w3 = (true, w')) ∨
      (ec = pqenterpipelinemode_failed ∧
       ∃ w0 w3, PQconnectPoll NC w0 = (PGRES_POLLING_OK, w3) ∧
                PQenterPipelineMode NC w3 = (false, w')) ∨
      (ec = connection_failed ∧
       ∃ w0, PQconnectPoll NC w0 = (PGRES_POLLING_FAILED, w')) ∨
      (is_error ec = true ∧ ∃ wt w0, async_wait N wt w0 = (ec, w')))))).
Proof.
  unfold async_connect. cbv zeta.
  destruct (PQstatus NC (PQconnectStart NC conninfo w)) eqn:Hstatus.
  2:{ intros [= <- <-]. by left. }
  all: intros Hrun; right; (split; [done|]);
    destruct (PQsetnonblocking NC (PQconnectStart NC conninfo w)) as [[|] w2] eqn:Hnb;
    [injection Hrun as <- <-; by left|right; split; [done|]];
    destruct (connect_poll N NC fuel w2) as [[[ecp|] w3]| |] eqn:Hpoll; try done;
    apply connect_poll_result in Hpoll; cbn in Hrun.
  - injection Hrun as <- <-. destruct Hpoll as [[-> Hp]|Hp]; [right; right; by left|].
    by do 3 right.
  - destruct Hpoll as [w0 Hp].
    destruct (PQenterPipelineMode NC w3) as [[|] w4] eqn:Henter;
      injection Hrun as <- <-; [left|right; left]; (split; [done|]); by exists w0, w3.
  - injection Hrun as <- <-. destruct Hpoll as [[-> Hp]|Hp]; [right; right; by left|].
    by do 3 right.
  - destruct Hpoll as [w0 Hp].
    destruct (PQenterPipelineMode NC w3) as [[|] w4] eqn:Henter;
      injection Hrun as <- <-; [left|right; left]; (split; [done|]); by exists w0, w3.
Qed.

End Loops.

(** * Further properties of the serializer, the parameter block and the scan *)

Section WireFormat.
Import Psql.

Lemma big_endian_value_acc bs : ∀ acc,
  foldl (λ acc b, acc * 256 + Z.of_N (Byte.to_N b))%Z acc bs =
  (acc * 256 ^ Z.of_nat (length bs) + big_endian_value bs)%Z.
Proof.
  unfold big_endian_value.
  induction bs as [|b bs IH]; intros acc; simpl foldl.
  - simpl. lia.
  - rewrite IH, (IH (0 * 256 + _)%Z).
    replace (Z.of_nat (length (b :: bs))) with (Z.succ (Z.of_nat (length bs)))
      by (simpl; lia).
    rewrite Z.pow_succ_r by lia. lia.
Qed.

Lemma big_endian_value_cons b bs :
  big_endian_value (b :: bs) =
  (Z.of_N (Byte.to_N b) * 256 ^ Z.of_nat (length bs) + big_endian_value bs)%Z.
Proof.
  unfold big_endian_value at 1. simpl foldl. rewrite big_endian_value_acc. lia.
Qed.

Lemma byte_of_Z_value z : Z.of_N (Byte.to_N (byte_of_Z z)) = (z mod 256)%Z.
Proof.
  unfold byte_of_Z.
  assert (Hland : Z.land z 255 = (z mod 256)%Z).
  { change 255%Z with (Z.ones 8). rewrite Z.land_ones by lia. done. }
  assert (Hrange : (0 ≤ z mod 256 < 256)%Z) by (apply Z.mod_pos_bound; lia).
  rewrite Hland.
  destruct (Byte.of_N (Z.to_N (z mod 256))) as [b|] eqn:Hb.
  - apply Byte.to_of_N in Hb. rewrite Hb. lia.
  - apply Byte.of_N_None_iff in Hb. lia.
Qed.

Lemma endian_store_big_S n z :
  endian_store_big (S n) z =
  byte_of_Z (Z.shiftr z (8 * Z.of_nat n)) :: endian_store_big n z.
Proof.
  unfold endian_store_big. rewrite seq_S, rev_app_distr. reflexivity.
Qed.

Lemma big_endian_value_endian_store_big n z :
  big_endian_value (endian_store_big n z) = (z mod 2 ^ (8 * Z.of_nat n))%Z.
Proof.
  induction n as [|n IH].
  - simpl. by rewrite Z.mod_1_r.
  - rewrite endian_store_big_S, big_endian_value_cons, IH, byte_of_Z_value.
    rewrite length_endian_store_big, Z.shiftr_div_pow2 by lia.
    replace (8 * Z.of_nat (S n))%Z with (8 * Z.of_nat n + 8)%Z by lia.
    rewrite Z.pow_add_r by lia.
    change (2 ^ 8)%Z with 256%Z.
    replace (256 ^ Z.of_nat n)%Z with (2 ^ (8 * Z.of_nat n))%Z.
    2:{ change 256%Z with (2 ^ 8)%Z. rewrite <- Z.pow_mul_r by lia. done. }
    rewrite (Z.rem_mul_r z (2 ^ (8 * Z.of_nat n)) 256) by lia. lia.
Qed.

(** X13: [endian_store] writes [sizeof(T)] bytes that spell the value, most
    significant byte first, in two's complement: read as a big-endian number
    they are the value modulo 2^(8 sizeof(T)); a time point is written as the
    8 bytes of its microseconds since 2000-01-01, whatever the map. *)
Theorem endian_store_big_spells_the_value size z :
  length (endian_store_big size z) = size ∧
  big_endian_value (endian_store_big size z) = (z mod 2 ^ (8 * Z.of_nat size))%Z ∧
  ∀ oid_of size_of omp,
    length (encode oid_of size_of omp (v_time_point z)) = 8 ∧
    big_endian_value (encode oid_of size_of omp (v_time_point z)) =
      ((z - 946684800000000) mod 2 ^ 64)%Z.
Proof.
  split; [apply length_endian_store_big|].
  split; [apply big_endian_value_endian_store_big|].
  intros oid_of size_of omp. cbn [encode].
  split; [apply length_endian_store_big|].
  apply (big_endian_value_endian_store_big 8).
Qed.

End WireFormat.

Section ParamsPointers.
Import Psql.
Variable oid_of : gmap type_index Oid → ty → Oid.
Variable size_of : value → Z.
Variable omp : gmap type_index Oid.

Lemma to_int_small z : (0 ≤ z < 2 ^ 31)%Z → to_int z = z.
Proof. intros Hz. unfold to_int. rewrite Z.mod_small by lia. lia. Qed.

(** The pointer [convert_offsets] records for a length: null for 0, and
    otherwise the sum of the lengths before it. *)
Lemma sum_nonneg ls : Forall (λ l, 0 ≤ l)%Z ls → (0 ≤ foldr Z.add 0 ls)%Z.
Proof. induction 1; simpl; lia. Qed.

Lemma convert_offsets_from_values ls : ∀ offset p i len,
  Forall (λ l, 0 ≤ l)%Z ls →
  (0 ≤ offset)%Z → (offset + foldr Z.add 0 ls < 2 ^ 64)%Z →
  ls !! i = Some len →
  values_ (convert_offsets_from offset ls p) !! (length (values_ p) + i) =
    Some (if decide (len ≠ 0)%Z
          then Some (offset + foldr Z.add 0 (take i ls))%Z else None).
Proof.
  induction ls as [|l ls IH]; intros offset p i len Hpos Hoff Hsum Hi; [done|].
  apply Forall_cons in Hpos as [Hl Hpos]. cbn [foldr] in Hsum.
  pose proof (sum_nonneg ls Hpos) as Hrest.
  cbn [convert_offsets_from]. rewrite (Z.mod_small (offset + l)) by lia.
  destruct i as [|i]; simpl in Hi.
  - injection Hi as ->.
    match goal with |- context [convert_offsets_from ?o ls ?q] =>
      destruct (convert_offsets_from_fields ls o q) as (_ & _ & _ & _ & _ & _ & _ & Hold)
    end.
    simpl in Hold. rewrite Nat.add_0_r, Hold by (rewrite length_app; simpl; lia).
    rewrite lookup_app_r by lia. rewrite Nat.sub_diag. simpl.
    by rewrite Z.add_0_r.
  - match goal with |- context [convert_offsets_from ?o ls ?q] =>
      pose proof (IH o q i len Hpos) as Hrec
    end.
    simpl in Hrec. rewrite length_app in Hrec. simpl in Hrec.
    replace (length (values_ p) + S i) with (length (values_ p) + 1 + i) by lia.
    rewrite Hrec by (done || lia). cbn [take foldr].
    destruct (decide (len ≠ 0)%Z); [|done]. do 2 f_equal. lia.
Qed.

Lemma mjoin_app (l1 l2 : list (list Byte.byte)) :
  mjoin (l1 ++ l2) = mjoin l1 ++ mjoin l2.
Proof.
  induction l1 as [|x l1 IH]; [done|].
  rewrite <- app_comm_cons, !mjoin_cons, IH. by rewrite app_assoc.
Qed.

Lemma sum_of_encoded_lengths vs :
  foldr Z.add 0%Z ((λ v, Z.of_nat (length (encode oid_of size_of omp v))) <$> vs) =
  Z.of_nat (length (mjoin (encode oid_of size_of omp <$> vs))).
Proof.
  induction vs as [|v vs IH]; [done|].
  cbn [fmap list_fmap foldr]. rewrite mjoin_cons, length_app, IH. lia.
Qed.

(** X14: when [size_of] is the number of bytes the serializer writes and the
    whole block is shorter than 2^31 bytes, the descriptor [params] builds
    addresses the encodings: the length of parameter [i] is the length of its
    encoding, its value pointer is null when that is empty and otherwise the
    offset where its encoding starts, and the bytes of the buffer from there
    on are its encoding. *)
Theorem params_values_address_the_encodings args :
  Forall (λ v, size_of v = Z.of_nat (length (encode oid_of size_of omp v))) args →
  (Z.of_nat (length (mjoin (encode oid_of size_of omp <$> args))) < 2 ^ 31)%Z →
  ∀ i v, args !! i = Some v →
    let p := make_params oid_of size_of omp args in
    let start := length (mjoin (encode oid_of size_of omp <$> take i args)) in
    lengths_ p !! i = Some (Z.of_nat (length (encode oid_of size_of omp v))) ∧
    values_ p !! i =
      Some (if decide (encode oid_of size_of omp v = []) then None
            else Some (Z.of_nat start)) ∧
    take (length (encode oid_of size_of omp v)) (drop start (buffer_ p)) =
      encode oid_of size_of omp v.
Proof.
  intros Hsize Htotal i v Hi. cbv zeta.
  pose proof (take_drop_middle args i v Hi) as Hsplit.
  assert (Hjoin : mjoin (encode oid_of size_of omp <$> args) =
            mjoin (encode oid_of size_of omp <$> take i args) ++
            encode oid_of size_of omp v ++
            mjoin (encode oid_of size_of omp <$> drop (S i) args)).
  { rewrite <- Hsplit at 1. by rewrite fmap_app, fmap_cons, mjoin_app, mjoin_cons. }
  assert (Hlens : (λ v, to_int (size_of v)) <$> args =
                  (λ v, Z.of_nat (length (encode oid_of size_of omp v))) <$> args).
  { apply list_eq. intros j. rewrite !list_lookup_fmap.
    destruct (args !! j) as [u|] eqn:Hj; [|done]. simpl. f_equal.
    rewrite (proj1 (Forall_lookup _ _) Hsize j u Hj).
    apply to_int_small.
    pose proof (take_drop_middle args j u Hj) as Hsplit'.
    rewrite <- Hsplit', fmap_app, fmap_cons, mjoin_app, mjoin_cons in Htotal.
    rewrite !length_app in Htotal. lia. }
  unfold make_params, convert_offsets.
  destruct (add_all oid_of size_of omp empty_params args)
    as (Hb & _ & Hl & Hv & _). cbn in Hb, Hl, Hv.
  change (map (λ v, to_int (size_of v)) args)
    with ((λ v, to_int (size_of v)) <$> args) in Hl.
  rewrite Hlens in Hl.
  match goal with |- context [convert_offsets_from ?o ?ls ?q] =>
    destruct (convert_offsets_from_fields ls o q) as (Hb' & _ & Hl' & _);
    pose proof (convert_offsets_from_values ls o q i
      (Z.of_nat (length (encode oid_of size_of omp v)))) as Hval
  end.
  cbv zeta in Hb', Hl'. rewrite Hb', Hl', Hb, Hl. rewrite Hv, Hl in Hval.
  split; [|split].
  - by rewrite list_lookup_fmap, Hi.
  - simpl in Hval. rewrite Hval.
    + rewrite <- fmap_take, sum_of_encoded_lengths, Z.add_0_l.
      destruct (decide (encode oid_of size_of omp v = [])) as [Hnil|Hnn].
      * rewrite Hnil. simpl. by destruct (decide (0 ≠ 0)%Z).
      * rewrite decide_True; [done|]. destruct (encode oid_of size_of omp v); [done|].
        simpl. lia.
    + apply Forall_fmap, Forall_true. intros u. simpl. lia.
    + lia.
    + rewrite sum_of_encoded_lengths. lia.
    + by rewrite list_lookup_fmap, Hi.
  - change (map (encode oid_of size_of omp) args)
      with (encode oid_of size_of omp <$> args).
    rewrite Hjoin, drop_app_length, take_app_length. done.
Qed.

End ParamsPointers.

Section TypeScanAgain.
Import Psql.

Lemma filter_none {A} (P : A → Prop) `{∀ x, Decision (P x)} (l : list A) :
  (∀ x, x ∈ l → ¬ P x) → filter P l = [].
Proof.
  induction l as [|x l IH]; intros Hnot; [done|].
  rewrite filter_cons. destruct (decide (P x)) as [HP|_].
  - exfalso. by apply (Hnot x); [left|].
  - apply IH. intros y Hy. apply Hnot. by right.
Qed.

Lemma scan_fields_filter (omp : gmap type_index Oid) fields :
  Forall (λ F, extract_new_udts F omp [] =
               filter (λ p, omp !! type p = None) (extract_new_udts F ∅ [])) fields →
  foldl (λ acc U, extract_new_udts U omp acc) [] fields =
  filter (λ p, omp !! type p = None)
    (foldl (λ acc U, extract_new_udts U ∅ acc) [] fields).
Proof.
  induction 1 as [|F fields HF _ IH]; [done|].
  rewrite !scan_fields_cons, filter_app, HF, IH. done.
Qed.

Lemma extract_new_udts_filter (omp : gmap type_index Oid) T :
  extract_new_udts T omp [] =
  filter (λ p, omp !! type p = None) (extract_new_udts T ∅ []).
Proof.
  induction T as [size| |k|id nm fields IH|fields IH|V IH] using ty_nested_ind;
    try done.
  - cbn [extract_new_udts].
    destruct (decide ((∅ : gmap type_index Oid) !! id = None)) as [_|Hne];
      [|by rewrite lookup_empty in Hne].
    rewrite (scan_fields_app ∅ fields) by
      (apply Forall_forall; intros; apply extract_new_udts_app).
    rewrite !app_nil_l, filter_app, filter_cons, filter_nil.
    rewrite <- (scan_fields_filter omp fields IH). cbn [type].
    destruct (decide (omp !! id = None)) as [Hfresh|Hreg]; [|done].
    by rewrite (scan_fields_app omp fields) by
      (apply Forall_forall; intros; apply extract_new_udts_app).
  - cbn [extract_new_udts]. by apply scan_fields_filter.
Qed.

(** X15: the map only filters the scan: what [extract_new_udts] yields for a
    map is what it yields for the empty map, in the same order, without the
    entries of the types the map registers.  So once every type a scan found
    is registered, in a map that keeps what was registered before, the next
    scan of the same type finds nothing. *)
Theorem extract_new_udts_filters_by_the_map (omp : gmap type_index Oid) T :
  extract_new_udts T omp [] =
    filter (λ p, omp !! type p = None) (extract_new_udts T ∅ []) ∧
  ∀ omp' : gmap type_index Oid,
    omp ⊆ omp' →
    (∀ p, p ∈ extract_new_udts T omp [] → is_Some (omp' !! type p)) →
    extract_new_udts T omp' [] = [].
Proof.
  split; [apply extract_new_udts_filter|].
  intros omp' Hsub Hreg. rewrite (extract_new_udts_filter omp' T).
  apply filter_none. intros p Hp Hnone.
  assert (Hold : omp !! type p = None) by (by eapply lookup_weaken_None).
  destruct (Hreg p) as [oid Hoid]; [|congruence].
  rewrite extract_new_udts_filter. by apply list_elem_of_filter.
Qed.

End TypeScanAgain.

(** * The further properties at concrete inputs *)

Section MoreScenarios.
Import Asiofiedpq.

Lemma deliver_all_steps rs : ∀ c c', deliver_all rs c = Ok c' → rtc step c c'.
Proof.
  induction rs as [|r rs IH]; intros c c'; simpl.
  - by intros [= <-].
  - destruct (dispatch r c) as [c1| |] eqn:Hd; try done. simpl. intros Hrest.
    eapply rtc_l; [by eapply step_dispatch|by apply IH].
Qed.

Lemma reachable_one_query_returned : reachable one_query_returned.
Proof.
  unfold reachable. eapply rtc_r; [|apply step_resume].
  etrans; [apply reachable_one_query_pending|].
  by apply (deliver_all_steps [tuples_ok 7]).
Qed.


(** A handshake that needs two reads before the poll succeeds. *)
Example handshake_run :
  async_connect scripted scripted_connect 3 "postgresql://localhost"
    {| inbox := [nullptr; nullptr]; readiness := []; consumes := true;
       accepts := true |} =
  Ok (success,
      {| inbox := []; readiness := []; consumes := true; accepts := true |}).
Proof. reflexivity. Qed.

Lemma queue_holds_exactly_the_waiting_witness :
  reachable one_query_returned ∧
  (0 ∈ popped one_query_returned ↔ status_of one_query_returned 0 = Some completed).
Proof.
  split; [exact reachable_one_query_returned|].
  exact (proj1 (proj2 (queue_holds_exactly_the_waiting one_query_returned 0
                         reachable_one_query_returned))).
Defined.

Lemma handler_signals_its_waiter_once_witness :
  reachable one_query_pending ∧
  ∀ id o, handlers (destroy one_query_pending) !! id = Some o →
    cv_ (rh o) = 1 ∧ get_status (rh o) ≠ waiting.
Proof.
  split; [exact reachable_one_query_pending|].
  exact (proj2 (handler_signals_its_waiter_once one_query_pending
                  reachable_one_query_pending)).
Defined.


Lemma async_query_returns_the_dispatched_result_witness :
  reachable one_query_returned ∧
  results_handled one_query_returned 0 = [tuples_ok 7].
Proof.
  split; [exact reachable_one_query_returned|].
  exact (proj1 (async_query_returns_the_dispatched_result one_query_returned 0
    {| rh := {| status_ := completed; cv_ := 1;
                body := single_query_result_handler nullptr |};
       storage := [];
       delivered := Some (query_completion success (tuples_ok 7)) |}
    (tuples_ok 7) reachable_one_query_returned eq_refl eq_refl)).
Defined.

Lemma destroyed_connection_fails_pending_execs_witness :
  reachable one_query_pending ∧
  ∃ o', handlers (resume 0 (destroy one_query_pending)) !! 0 = Some o' ∧
    delivered o' = Some (query_completion connection_failed nullptr).
Proof.
  split; [exact reachable_one_query_pending|].
  destruct (destroyed_connection_fails_pending_execs one_query_pending 0
    {| rh := new_single_query_result_handler; storage := []; delivered := None |}
    reachable_one_query_pending eq_refl eq_refl) as (o' & Ho' & Hqueued & _).
  exists o'. split; [exact Ho'|]. apply Hqueued. by left.
Defined.


Lemma reader_returns_an_error_witness :
  reader scripted 1 lost_connection one_query_pending =
    Ok (transport_error 104,
        {| inbox := []; readiness := []; consumes := true; accepts := true |},
        one_query_pending) ∧
  is_error (transport_error 104) = true.
Proof.
  split; [reflexivity|].
  exact (proj1 (reader_returns_an_error scripted 1 lost_connection
                  one_query_pending _ _ _ eq_refl)).
Defined.

Lemma writer_ends_on_a_wakeup_a_cancellation_or_a_socket_error_witness :
  writer scripted 1 [timer_completed operation_aborted; writer_cancelled]
    lost_connection = Ok (operation_aborted, lost_connection) ∧
  ((∃ k, [timer_completed operation_aborted; writer_cancelled] !! k =
           Some (timer_completed operation_aborted) ∧
         operation_aborted ≠ operation_aborted ∧
         take k [timer_completed operation_aborted; writer_cancelled] =
           replicate k (timer_completed operation_aborted)) ∨
   (∃ k, [timer_completed operation_aborted; writer_cancelled] !! k =
           Some writer_cancelled ∧
         operation_aborted = operation_aborted ∧
         take k [timer_completed operation_aborted; writer_cancelled] =
           replicate k (timer_completed operation_aborted)) ∨
   (is_error operation_aborted = true ∧
    ∃ w0, (async_wait scripted wait_write w0).1 = operation_aborted)).
Proof.
  split; [reflexivity|].
  exact (writer_ends_on_a_wakeup_a_cancellation_or_a_socket_error scripted 1
           [timer_completed operation_aborted; writer_cancelled] lost_connection
           _ _ eq_refl).
Defined.

Lemma reader_drain_stops_when_busy_or_drained_witness :
  reader_drain scripted 2 (answering [tuples_ok 7]) one_query_pending =
    Ok (answering [], one_query_answered) ∧
  (PQisBusy scripted (answering []) = true ∨
   ∃ w0 w1, PQisBusy scripted w0 = false ∧ PQgetResult scripted w0 = (nullptr, w1) ∧
     PQisBusy scripted w1 = false ∧ PQgetResult scripted w1 = (nullptr, answering [])).
Proof.
  split; [reflexivity|].
  exact (reader_drain_stops_when_busy_or_drained scripted 2 (answering [tuples_ok 7])
           one_query_pending _ _ eq_refl).
Defined.

Lemma async_exec_pipeline_submits_in_push_order_witness :
  async_exec_pipeline scripted phonebook 0 3 (answering []) new_connection =
    Ok (answering [], pipeline_pending, None).
Proof.
  refine (async_exec_pipeline_submits_in_push_order scripted phonebook 0 3
            (answering []) new_connection _ _); simpl; lia.
Defined.

Lemma async_exec_pipeline_reversed_range_runs_off_the_end_witness :
  async_exec_pipeline accepting phonebook 2 1 tt new_connection =
    Fault (invalid_access 3).
Proof.
  refine (async_exec_pipeline_reversed_range_runs_off_the_end accepting phonebook
            2 1 tt new_connection _ _ _); [reflexivity|lia|simpl; lia].
Defined.

Lemma async_connect_outcomes_witness :
  async_connect scripted scripted_connect 1 "postgresql://localhost"
    (answering []) = Ok (success, answering []) ∧
  PQstatus scripted_connect
    (PQconnectStart scripted_connect "postgresql://localhost" (answering [])) ≠
    CONNECTION_BAD.
Proof.
  split; [reflexivity|].
  destruct (async_connect_outcomes scripted scripted_connect 1
              "postgresql://localhost" (answering []) _ _ eq_refl)
    as [(Hec & _)|(Hstatus & _)]; [discriminate Hec|exact Hstatus].
Defined.

Lemma reader_serves_handlers_in_enqueue_order_witness :
  reachable one_query_returned ∧
  ∀ call, call ∈ handled one_query_returned →
    call.1 ∈ popped one_query_returned ∨
    head (result_handlers_ one_query_returned) = Some call.1.
Proof.
  split; [exact reachable_one_query_returned|].
  exact (proj1 (proj2 (reader_serves_handlers_in_enqueue_order one_query_returned
                         reachable_one_query_returned))).
Defined.

Lemma reachable_pipeline_cancelled : reachable pipeline_cancelled.
Proof.
  unfold reachable. eapply rtc_r; [apply reachable_pipeline_pending|apply step_resume].
Qed.

Lemma pipeline_cancelled_to_answered :
  rtc step pipeline_cancelled pipeline_cancelled_then_answered.
Proof. by apply (deliver_all_steps [command_ok 1; command_ok 2]). Qed.

Lemma cancelled_pipeline_never_writes_again_witness :
  reachable pipeline_cancelled ∧
  rtc step pipeline_cancelled pipeline_cancelled_then_answered ∧
  ∃ o' n',
    handlers pipeline_cancelled_then_answered !! 0 = Some o' ∧
    storage o' = phonebook ∧
    delivered o' = Some (pipeline_completion operation_aborted) ∧
    body (rh o') = pipeline_result_handler 0 3 n'.
Proof.
  split; [exact reachable_pipeline_cancelled|].
  split; [exact pipeline_cancelled_to_answered|].
  destruct (cancelled_pipeline_never_writes_again pipeline_cancelled 0
    {| rh := {| status_ := waiting; cv_ := 0;
                body := pipeline_result_handler 0 3 3 |};
       storage := phonebook;
       delivered := Some (pipeline_completion operation_aborted) |}
    0 3 3 pipeline_cancelled_then_answered
    reachable_pipeline_cancelled eq_refl eq_refl)
    as (o' & n' & H1 & H2 & H3 & H4 & _);
    [lia|reflexivity|discriminate|exact pipeline_cancelled_to_answered|].
  exists o', n'. split; [exact H1|]. split; [exact H2|]. split; [exact H3|exact H4].
Defined.

End MoreScenarios.

Section MorePsqlScenarios.
Import Psql.

Lemma params_values_address_the_encodings_witness :
  [v_text std_string [Byte.x61]; v_text string_view [Byte.x61; Byte.x62]] !! 1 =
    Some (v_text string_view [Byte.x61; Byte.x62]) ∧
  values_ (make_params example_oid_of size_of ∅
             [v_text std_string [Byte.x61]; v_text string_view [Byte.x61; Byte.x62]])
    !! 1 = Some (Some 1%Z).
Proof.
  split; [reflexivity|].
  refine (proj1 (proj2 (params_values_address_the_encodings example_oid_of size_of ∅
    [v_text std_string [Byte.x61]; v_text string_view [Byte.x61; Byte.x62]] _ _
    1 (v_text string_view [Byte.x61; Byte.x62]) eq_refl))).
  - repeat constructor.
  - simpl. lia.
Defined.

Lemma extract_new_udts_filters_by_the_map_witness :
  extract_new_udts point ∅ [] = [{| name := "point"; type := 1 |}] ∧
  extract_new_udts point {[1 := 16385%Z]} [] = [].
Proof.
  split; [reflexivity|].
  refine (proj2 (extract_new_udts_filters_by_the_map ∅ point) {[1 := 16385%Z]} _ _).
  - apply map_empty_subseteq.
  - intros p Hp. apply list_elem_of_singleton in Hp. rewrite Hp. by eexists.
Defined.

End MorePsqlScenarios.
